(** * neural-lm: the recurrent language model of [models/rnnlm.py]

    A shallow embedding of [RNNEncoder] and [RNNLM].  Tensors are nested
    lists (a [[batch, time]] tensor of ids is a [list (list Z)]), Python
    exceptions are the [Raise] branch of [result], and the sub-modules the
    file imports from elsewhere ([StackedRNNLayer], [AdaptiveLogSoftmax],
    [LabelSmoothingLoss]) are either parameters or definitions marked
    "Modelled from the spec". *)

From stdpp Require Import base list strings.
From Stdlib Require Import ZArith Lia Reals Lra.

Local Open Scope Z_scope.

(** ** Python exceptions *)

Inductive PyError : Type :=
| TypeError
| IndexError
| RuntimeError
| AttributeError
| AssertionError.

Inductive result (A : Type) : Type :=
| Ok (a : A)
| Raise (e : PyError).

Arguments Ok {A} a.
Arguments Raise {A} e.

Definition bind {A B} (m : result A) (k : A → result B) : result B :=
  match m with
  | Ok a => k a
  | Raise e => Raise e
  end.

Notation "'let*' x ':=' m 'in' k" := (bind m (λ x, k))
  (at level 10, x name, m at level 100, k at level 200, only parsing).
Notation "'let*' ' p ':=' m 'in' k" := (bind m (λ x, let 'p := x in k))
  (at level 10, p strict pattern, m at level 100, k at level 200, only parsing).

Definition is_ok {A} (m : result A) : bool :=
  match m with Ok _ => true | Raise _ => false end.

(** [for_each f l]: run the fallible [f] on every element, left to right;
    the first exception aborts. *)
Fixpoint for_each {A B} (f : A → result B) (l : list A) : result (list B) :=
  match l with
  | [] => Ok []
  | a :: l' => let* b := f a in let* bs := for_each f l' in Ok (b :: bs)
  end.

(** ** Tensor helpers *)

(** Column [j] of a nested list. *)
Definition column {A} (j : nat) (x : list (list A)) : list A :=
  omap (λ row : list A, row !! j) x.

(** [x.transpose(0, 1)] on a rectangular nested list; the number of
    columns is read off the first row. *)
Definition transpose {A} (x : list (list A)) : list (list A) :=
  match x with
  | [] => []
  | r :: _ => (λ j, column j x) <$> seq 0 (length r)
  end.

(** Entry [[i, j]] of a nested list. *)
Definition at2 {A} (x : list (list A)) (i j : nat) : option A :=
  (x !! i) ≫= (λ r : list A, r !! j).

(** [x.unsqueeze(2)] on a 2-d tensor: every entry becomes a vector of
    length one. *)
Definition unsqueeze2 {A} (x : list (list A)) : list (list (list A)) :=
  (λ row : list A, (λ a, [a]) <$> row) <$> x.

(** [torch.max(v)] of a 1-d integer tensor; an empty tensor has no
    maximum and raises. *)
Definition torch_max (v : list Z) : result Z :=
  match v with
  | [] => Raise RuntimeError
  | a :: v' => Ok (foldr Z.max a v')
  end.

(** [torch.arange(0, n, 1)]: [0 .. n-1]; a negative upper bound raises. *)
Definition arange (n : Z) : result (list Z) :=
  if n <? 0 then Raise RuntimeError else Ok (seqZ 0 n).

(** [seq_len.unsqueeze(1) < ids]: a [[batch, 1]] column broadcast against
    the row [ids], giving [[batch, len ids]]. *)
Definition lt_broadcast (seq_len ids : list Z) : list (list bool) :=
  (λ l : Z, (λ t : Z, l <? t) <$> ids) <$> seq_len.

(** Lines 56-60 (and 80-84) of [rnnlm.py]: the padding mask, time major,
    [[max_seq_len, batch, 1]]. *)
Definition build_padding (seq_len : list Z) : result (list (list (list bool))) :=
  let* max_seq_len := torch_max seq_len in
  let* ids := arange max_seq_len in
  let padding := lt_broadcast seq_len ids in
  Ok (unsqueeze2 (transpose padding)).

(** The mask as the data model words it (section 3): time major, "true
    where a position index ≥ that sequence's valid length". *)
Definition spec_padding (seq_len : list Z) (T : Z) : list (list (list bool)) :=
  (λ t : Z, (λ l : Z, [l <=? t]) <$> seq_len) <$> seqZ 0 T.

(** ** The library modules the encoder is built from *)

(** The weight table of [nn.Embedding], one row per id. *)
Abbreviation Embedding F := (list (list F)) (only parsing).

(** The state a caller threads through [forward_step]:
    [(state_m, state_c)], each [[n_layers, batch, hidden]]. *)
Abbreviation rnn_state F :=
  (list (list (list F)) * list (list (list F)))%type (only parsing).

Section Modules.
Context {F : Type}.

(** [nn.Embedding] on one id: row [i] of the weight table; an id outside
    [0, num_embeddings) raises. *)
Definition embed (table : Embedding F) (i : Z) : result (list F) :=
  if (0 <=? i) && (i <? Z.of_nat (length table))
  then match table !! Z.to_nat i with
       | Some row => Ok row
       | None => Raise IndexError
       end
  else Raise IndexError.

(** Row [i] of the table, for an id known to be in range. *)
Definition emb_row (table : Embedding F) (i : Z) : list F :=
  default [] (table !! Z.to_nat i).

(** An id the table has a row for. *)
Definition in_vocab (table : Embedding F) (i : Z) : Prop :=
  0 ≤ i < Z.of_nat (length table).

(** [self.lookup_table(input)] on a [[batch, time]] tensor of ids. *)
Definition Embedding_call (table : Embedding F) (input : list (list Z))
  : result (list (list (list F))) :=
  for_each (for_each (embed table)) input.

(** [nn.Linear]: an affine map of the last dimension, applied to every
    row of a 3-d tensor. *)
Definition Linear : Type := list F → list F.

Definition Linear_call (lin : Linear) (x : list (list (list F)))
  : list (list (list F)) :=
  (λ m : list (list F), lin <$> m) <$> x.

(** [torch.nn.functional.log_softmax(x, dim)] on a 3-d tensor.
    [lsm] normalises one 1-d slice; [dim] must lie in [-3, 2]. *)
Definition F_log_softmax (lsm : list F → list F)
    (x : list (list (list F))) (dim : Z) : result (list (list (list F))) :=
  let along1 (y : list (list (list F))) :=
    (λ m : list (list F), transpose (lsm <$> transpose m)) <$> y in
  if (dim =? 2) || (dim =? -1) then
    Ok ((λ m : list (list F), lsm <$> m) <$> x)
  else if (dim =? 1) || (dim =? -2) then
    Ok (along1 x)
  else if (dim =? 0) || (dim =? -3) then
    Ok (transpose (along1 (transpose x)))
  else Raise IndexError.

(** Modelled from the spec: [AdaptiveLogSoftmax] of
    [models/adaptive_softmax.py], which is not among the sources.
    Section 4.3 gives it one contract,
    [log_probabilities(hidden[*, H]) -> log_probs[*, vocab_size]]: a
    map of the last dimension, whatever the leading dimensions. *)
Definition AdaptiveLogSoftmax : Type := list F → list F.

Definition AdaptiveLogSoftmax_call (a : AdaptiveLogSoftmax)
    (x : list (list (list F))) : list (list (list F)) :=
  (λ m : list (list F), a <$> m) <$> x.

(** What [self.log_softmax] holds after [__init__]: the adaptive module,
    or [nn.LogSoftmax(dim)]. *)
Inductive LogSoftmaxModule : Type :=
| Adaptive (a : AdaptiveLogSoftmax)
| LogSoftmax (dim : Z).

(** [self.log_softmax(o)] and [self.log_softmax(o, dim=d)].
    [nn.LogSoftmax.forward] takes the input only: a keyword argument is
    a [TypeError].  The adaptive module is called on the last
    dimension either way. *)
Definition log_softmax_call (lsm : list F → list F) (m : LogSoftmaxModule)
    (o : list (list (list F))) (dim_kw : option Z)
  : result (list (list (list F))) :=
  match m with
  | Adaptive a => Ok (AdaptiveLogSoftmax_call a o)
  | LogSoftmax dim =>
      match dim_kw with
      | Some _ => Raise TypeError
      | None => F_log_softmax lsm o dim
      end
  end.

(** [StackedRNNLayer.__call__(input, padding, state)]: time-major input
    [[time, batch, dim]], mask [[time, batch, 1]], optional prior
    state; returns [(output, (state_m, state_c))]. *)
Definition StackedRNN : Type :=
  list (list (list F)) → list (list (list bool)) → option (rnn_state F) →
  result (list (list (list F)) * rnn_state F).
End Modules.

Arguments Linear : clear implicits.
Arguments AdaptiveLogSoftmax : clear implicits.
Arguments LogSoftmaxModule : clear implicits.
Arguments StackedRNN : clear implicits.

(** ** The stacked recurrent layer *)

(** One batch row of one layer's state: [(m, c)]. *)
Abbreviation row_state F := (list F * list F)%type (only parsing).

Section StackedRNNLayer.
Context {F : Type}.

(** The value a fresh state is filled with. *)
Variable zero : F.

(** A cell's transition on one batch row: input vector and prior
    [(m, c)] to the candidate [(m, c)].  A GRU-style cell carries its
    single state in [m]. *)
Definition Cell : Type := list F → row_state F → row_state F.

Record StackedRNNLayer : Type := {
  cell_type : string;
  hidden_nodes : nat;
  cells : list Cell
}.

(** Modelled from the spec: the [select(mask, old, candidate)] of section
    9, "keep old state where padded, else candidate"; part of the
    [StackedRNNLayer] of [models/rnn.py], which is not among the sources. *)
Definition select (mask : bool) (old candidate : row_state F) : row_state F :=
  if mask then old else candidate.

(** The mask entry of one batch row is a vector of length one. *)
Definition mask_bit (m : list bool) : bool :=
  match m with
  | b :: _ => b
  | [] => false
  end.

(** Modelled from the spec: one layer of the missing [StackedRNNLayer]
    at one timestep, over the batch (section 4.2: the candidate from
    the cell's transition, then the selection per batch element). *)
Definition layer_step (c : Cell) (xs : list (list F)) (ms : list (list bool))
    (s : list (row_state F)) : list (row_state F) :=
  zip_with (λ (xm : list F * list bool) (old : row_state F),
              select (mask_bit xm.2) old (c xm.1 old))
           (zip xs ms) s.

(** Modelled from the spec: all layers of the missing [StackedRNNLayer]
    at one timestep.  A layer's input is the [m] of the layer below; the
    output is the [m] of the top layer. *)
Fixpoint time_step (cs : list Cell) (xs : list (list F))
    (ms : list (list bool)) (st : list (list (row_state F)))
  : list (list F) * list (list (row_state F)) :=
  match cs, st with
  | c :: cs', s :: st' =>
      let s' := layer_step c xs ms s in
      let r := time_step cs' (fst <$> s') ms st' in
      (r.1, s' :: r.2)
  | _, _ => (xs, [])
  end.

(** Modelled from the spec: all timesteps of the missing
    [StackedRNNLayer], threading the state; one timestep is the same
    [time_step] whether it is the only one or one of many (section 9). *)
Fixpoint run (cs : list Cell) (emb : list (list (list F)))
    (mask : list (list (list bool))) (st : list (list (row_state F)))
  : list (list (list F)) * list (list (row_state F)) :=
  match emb, mask with
  | xs :: emb', ms :: mask' =>
      let r := time_step cs xs ms st in
      let r' := run cs emb' mask' r.2 in
      (r.1 :: r'.1, r'.2)
  | _, _ => ([], st)
  end.

(** [(state_m, state_c)] to per-row pairs and back. *)
Definition pack (s : rnn_state F) : list (list (row_state F)) :=
  zip_with zip s.1 s.2.

Definition unpack (st : list (list (row_state F))) : rnn_state F :=
  ((λ l : list (row_state F), fst <$> l) <$> st,
   (λ l : list (row_state F), snd <$> l) <$> st).

Definition zero_state (n_layers batch hidden : nat) : list (list (row_state F)) :=
  replicate n_layers
    (replicate batch (replicate hidden zero, replicate hidden zero)).

Definition batch_of {A} (emb : list (list A)) : nat :=
  match emb with
  | xs :: _ => length xs
  | [] => 0%nat
  end.

Definition tensor2_ok {A} (rows cols : nat) (x : list (list A)) : bool :=
  (length x =? rows)%nat && forallb (λ r, (length r =? cols)%nat) x.

(** Every tensor agrees on batch size, the mask has one row per
    timestep, and a prior state has one entry per layer. *)
Definition shapes_ok (n_layers : nat) (emb : list (list (list F)))
    (mask : list (list (list bool))) (state : option (rnn_state F)) : bool :=
  let B := batch_of emb in
  forallb (λ xs, (length xs =? B)%nat) emb
  && tensor2_ok (length emb) B mask
  && forallb (forallb (λ m : list bool, (length m =? 1)%nat)) mask
  && match state with
     | Some (sm, sc) => tensor2_ok n_layers B sm && tensor2_ok n_layers B sc
     | None => true
     end.

(** The state a call starts from: the prior state if one is passed,
    zeros otherwise. *)
Definition initial_state (layer : StackedRNNLayer) (emb : list (list (list F)))
    (state : option (rnn_state F)) : list (list (row_state F)) :=
  match state with
  | Some s => pack s
  | None => zero_state (length (cells layer)) (batch_of emb) (hidden_nodes layer)
  end.

(** Modelled from the spec: [StackedRNNLayer] of [models/rnn.py], which
    is not among the sources.  Section 4.2: at each timestep,
    for each layer, the candidate state comes from the cell's
    transition, and per batch element the candidate is kept where the
    mask is false, the previous state where it is true; without a prior
    state the state starts at zero (section 3); inconsistent shapes
    fail (sections 4.2 and 7).  Dropout between layers is the identity
    here (rate 0, or evaluation mode). *)
Definition StackedRNNLayer_call (layer : StackedRNNLayer) : StackedRNN F :=
  λ emb mask state,
    if shapes_ok (length (cells layer)) emb mask state then
      let r := run (cells layer) emb mask (initial_state layer emb state) in
      Ok (r.1, unpack r.2)
    else Raise RuntimeError.

(** The state of every layer once the first [t] timesteps are done. *)
Definition states_after (cs : list Cell) (emb : list (list (list F)))
    (mask : list (list (list bool))) (st : list (list (row_state F))) (t : nat)
  : list (list (row_state F)) :=
  (run cs (take t emb) (take t mask) st).2.

(** A state with one entry per layer and [batch] rows per layer. *)
Definition wf_state (cs : list Cell) (batch : nat)
    (st : list (list (row_state F))) : Prop :=
  length st = length cs ∧ Forall (λ s, length s = batch) st.

(** Two states that hold the same row [b] at every layer. *)
Definition agree_at (b : nat) (st st' : list (list (row_state F))) : Prop :=
  Forall2 (λ s s' : list (row_state F), s !! b = s' !! b) st st'.
End StackedRNNLayer.

Arguments Cell : clear implicits.
Arguments StackedRNNLayer : clear implicits.

(** ** [class RNNEncoder] *)

Module RNNEncoder.
Section Encoder.
Context {F : Type}.

(** The 1-d log-softmax that [torch] computes on one slice. *)
Variable lsm : list F → list F.

(** The attributes [__init__] sets.  [out] exists only when the plain
    projection is used. *)
Record t : Type := {
  lookup_table : Embedding F;
  stacked_rnn : StackedRNN F;
  adaptive_softmax : bool;
  out : option (Linear F);
  log_softmax : LogSoftmaxModule F
}.

(** [__init__] (lines 26-44).  The sub-modules arrive already built:
    their parameters are what [nn.Embedding], [StackedRNNLayer],
    [AdaptiveLogSoftmax] and [nn.Linear] would hold after
    initialisation.  Note [nn.LogSoftmax(dim=vocab_size)] on line 44. *)
Definition init (vocab_size : Z) (table : Embedding F) (rnn : StackedRNN F)
    (adaptive_softmax : bool) (adaptive : AdaptiveLogSoftmax F)
    (linear : Linear F) : t :=
  {| lookup_table := table;
     stacked_rnn := rnn;
     adaptive_softmax := adaptive_softmax;
     out := if adaptive_softmax then None else Some linear;
     log_softmax := if adaptive_softmax then Adaptive adaptive
                    else LogSoftmax vocab_size |}.

(** [if not self.adaptive_softmax: o = self.out(o)] *)
Definition project (self : t) (o : list (list (list F)))
  : result (list (list (list F))) :=
  if negb (adaptive_softmax self) then
    match out self with
    | Some lin => Ok (Linear_call lin o)
    | None => Raise AttributeError
    end
  else Ok o.

(** [forward] (lines 46-71). *)
Definition forward (self : t) (input : list (list Z)) (seq_len : list Z)
  : result (list (list (list F))) :=
  let* embeddding := Embedding_call (lookup_table self) input in
  let* padding := build_padding seq_len in
  let embeddding := transpose embeddding in
  let* output := stacked_rnn self embeddding padding None in
  let o := output.1 in
  let* o := project self o in
  let o := transpose o in
  log_softmax_call lsm (log_softmax self) o (Some 2).

(** [forward_step] (lines 73-95). *)
Definition forward_step (self : t) (input : list (list Z)) (seq_len : list Z)
    (state_m state_c : list (list (list F)))
  : result (list (list (list F)) * rnn_state F) :=
  let* embeddding := Embedding_call (lookup_table self) input in
  let* padding := build_padding seq_len in
  let embeddding := transpose embeddding in
  let* output := stacked_rnn self embeddding padding (Some (state_m, state_c)) in
  let '(o, s) := (output.1, output.2) in
  let* o := project self o in
  let o := transpose o in
  let* o := log_softmax_call lsm (log_softmax self) o None in
  Ok (o, s).
End Encoder.

Arguments t : clear implicits.
End RNNEncoder.

(** ** [class RNNLM] *)

(** What [RNNLM] needs of [lm_encoder]: it is called on a batch, and its
    [forward_step] is called with a prior state. *)
Record LMEncoder (F : Type) : Type := {
  enc_forward : list (list Z) → list Z → result (list (list (list F)));
  enc_forward_step :
    list (list Z) → list Z → list (list (list F)) → list (list (list F)) →
    result (list (list (list F)) * rnn_state F)
}.

Arguments enc_forward {F} _ _ _.
Arguments enc_forward_step {F} _ _ _ _ _.

Definition encoder_module {F} (lsm : list F → list F) (e : RNNEncoder.t F)
  : LMEncoder F :=
  {| enc_forward := RNNEncoder.forward lsm e;
     enc_forward_step := RNNEncoder.forward_step lsm e |}.

(** The arithmetic [RNNLM.forward] does on float tensors. *)
Class FloatOps (F : Type) : Type := {
  fexp : F → F;
  fmul : F → F → F;
  fdiv : F → F → F;
  of_int : Z → F
}.

(** The constructor arguments of [LabelSmoothingLoss], in the order line
    116 passes them. *)
Record LabelSmoothingLoss (F : Type) : Type := {
  size : Z;
  padding_idx : Z;
  smoothing : F;
  normalize_length : bool
}.

Arguments size {F} _.
Arguments padding_idx {F} _.
Arguments smoothing {F} _.
Arguments normalize_length {F} _.

(** Modelled from the spec: which target positions [LabelSmoothingLoss]
    (of [models/label_smoothing.py], not among the sources) leaves out.  Section 4.4: the loss runs over each position "with
    target ≠ ignore_id" and ignored positions "contribute no loss and no
    normalization count". *)
Definition ignored {F} (crit : LabelSmoothingLoss F) (label : Z) : bool :=
  label =? padding_idx crit.

(** The further arithmetic of the loss. *)
Class LossOps (F : Type) : Type := {
  fzero : F;
  fadd : F → F → F;
  fsub : F → F → F
}.

Section Criterion.
Context {F : Type} `{FloatOps F} `{LossOps F}.









End Criterion.

(** A signed 64-bit integer: the value of [z] after wrap-around. *)
Definition wrap_int64 (z : Z) : Z := (z + 2 ^ 63) mod 2 ^ 64 - 2 ^ 63.

Module RNNLM.
Section LM.
Context {F : Type} `{FloatOps F}.

(** [LabelSmoothingLoss.forward(logit, labels)], returning
    [(loss, each_seq_loss_in_batch)]; its body is outside this file. *)
Variable criterion_call :
  LabelSmoothingLoss F → list (list (list F)) → list (list Z) →
  result (F * list F).

Record t : Type := {
  model : LMEncoder F;
  length_normalized_loss : bool;
  criterion : LabelSmoothingLoss F
}.

(** [__init__] (lines 102-117). *)
Definition init (vocab_size : Z) (lm_encoder : LMEncoder F)
    (lsm_weight : F) (length_normalized_loss : bool) : t :=
  {| model := lm_encoder;
     length_normalized_loss := length_normalized_loss;
     criterion := {| size := vocab_size; padding_idx := -1;
                     smoothing := lsm_weight;
                     normalize_length := length_normalized_loss |} |}.

(** The [assert] of lines 133-135: a chained [==] over the four
    [shape[0]]. *)
Definition batch_sizes_match (input : list (list Z)) (input_length : list Z)
    (labels : list (list Z)) (labels_length : list Z) : bool :=
  (length input =? length input_length)%nat
  && (length input_length =? length labels)%nat
  && (length labels =? length labels_length)%nat.

Definition check_batch (input : list (list Z)) (input_length : list Z)
    (labels : list (list Z)) (labels_length : list Z) : result () :=
  if batch_sizes_match input input_length labels labels_length
  then Ok () else Raise AssertionError.

(** [labels_length.sum()]: the sum of an integer tensor is a 64-bit
    integer and wraps around. *)
Definition tensor_sum (v : list Z) : Z := wrap_int64 (foldr Z.add 0 v).

(** Lines 137-144, what follows the [assert]. *)
Definition forward_body (self : t) (input : list (list Z))
    (input_length : list Z) (labels : list (list Z)) (labels_length : list Z)
  : result (F * list F * F) :=
  let* logit := enc_forward (model self) input input_length in
  let* '(loss, each_seq_loss_in_batch) := criterion_call (criterion self) logit labels in
  let total_ppl :=
    if length_normalized_loss self then fexp loss
    else fdiv (fmul loss (of_int (Z.of_nat (length input))))
              (of_int (tensor_sum labels_length)) in
  let ppl := fexp <$> each_seq_loss_in_batch in
  Ok (loss, ppl, total_ppl).

(** [forward] (lines 119-144). *)
Definition forward (self : t) (input : list (list Z)) (input_length : list Z)
    (labels : list (list Z)) (labels_length : list Z)
  : result (F * list F * F) :=
  let* _ := check_batch input input_length labels labels_length in
  forward_body self input input_length labels labels_length.

(** [forward_step] (lines 146-153). *)
Definition forward_step (self : t) (input : list (list Z)) (seq_len : list Z)
    (state_m state_c : list (list (list F)))
  : result (list (list (list F)) * list (list (list F)) * list (list (list F))) :=
  let* '(o, s) := enc_forward_step (model self) input seq_len state_m state_c in
  Ok (o, s.1, s.2).
End LM.

Arguments t : clear implicits.
End RNNLM.

(** ** Threading [forward_step] over a sequence *)

Section StepLoop.
Context {F : Type}.
Variable lsm : list F → list F.

(** [input[:, t:t+1]] for every [t]: the one-token batches a caller
    feeds to [forward_step], first to last. *)
Definition time_slices (input : list (list Z)) : list (list (list Z)) :=
  (λ col : list Z, (λ i, [i]) <$> col) <$> transpose input.

(** Call [forward_step] once per one-token batch, each with the lengths
    the caller passes for that call, handing each returned state on as
    the next prior state; collect the outputs. *)
Fixpoint step_loop (self : RNNEncoder.t F)
    (calls : list (list (list Z) * list Z)) (state : rnn_state F)
  : result (list (list (list (list F))) * rnn_state F) :=
  match calls with
  | [] => Ok ([], state)
  | (input, seq_len) :: rest =>
      let* r := RNNEncoder.forward_step lsm self input seq_len state.1 state.2 in
      let* r' := step_loop self rest r.2 in
      Ok (r.1 :: r'.1, r'.2)
  end.

(** The lengths a caller passes at step [t] to have [forward_step]
    rebuild row [t] of the mask [forward] builds from [seq_len]: the one
    row of a step is [length < 0], so a sequence that [forward] masks at
    [t] is given [-1], every other one [1]. *)
Definition step_lengths (seq_len : list Z) (t : Z) : list Z :=
  (λ l : Z, if l <? t then -1 else 1) <$> seq_len.

(** The [T] calls of the step path over a batch: slice [t] with the
    lengths for step [t]. *)
Definition step_calls (input : list (list Z)) (seq_len : list Z) (T : Z)
  : list (list (list Z) * list Z) :=
  zip (time_slices input) (step_lengths seq_len <$> seqZ 0 T).

(** Entry [[b, t]] of a full-sequence output against entry [[b, 0]] of
    the [t]-th single-step output. *)
Definition same_at (o : list (list (list F)))
    (os : list (list (list (list F)))) (b t : nat) : Prop :=
  ∃ row, at2 o b t = Some row
         ∧ (os !! t) ≫= (λ ot : list (list (list F)), at2 ot b 0) = Some row.

End StepLoop.

(** ** Small instances used in examples *)

Definition toy_table : Embedding Z := [[1]; [2]; [3]].

(** A one-unit cell: [m' = m + x], [c' = c]. *)
Definition toy_cell : Cell Z := λ x s, (zip_with Z.add x s.1, s.2).

Definition toy_layer : StackedRNNLayer Z :=
  {| cell_type := "gru"; hidden_nodes := 1; cells := [toy_cell] |}.

(** Three timesteps of a batch of two, and a mask that is true for the
    first sequence from position 1 on. *)
Definition toy_emb : list (list (list Z)) :=
  [[[1]; [1]]; [[2]; [2]]; [[3]; [3]]].

Definition toy_mask : list (list (list bool)) :=
  [[[false]; [false]]; [[true]; [false]]; [[true]; [false]]].

Definition toy_scores : AdaptiveLogSoftmax Z := λ h, h.

Definition toy_linear : Linear Z := λ h, h ++ h ++ h.

Definition toy_encoder (adaptive_softmax : bool) : RNNEncoder.t Z :=
  RNNEncoder.init 3 toy_table (StackedRNNLayer_call 0 toy_layer)
    adaptive_softmax toy_scores toy_linear.

Global Instance R_float_ops : FloatOps R :=
  {| fexp := exp; fmul := Rmult; fdiv := Rdiv; of_int := IZR |}.

(** An encoder over the reals that scores every position [[0, 0]]. *)
Definition flat_encoder : LMEncoder R :=
  {| enc_forward := λ input _, Ok ((λ r : list Z, (λ _, [0%R; 0%R]) <$> r) <$> input);
     enc_forward_step := λ input _ m c,
       Ok ((λ r : list Z, (λ _, [0%R; 0%R]) <$> r) <$> input, (m, c)) |}.

Global Instance R_loss_ops : LossOps R :=
  {| fzero := 0%R; fadd := Rplus; fsub := Rminus |}.

(** An encoder over the reals that scores every position [[-1, -2]]. *)
Definition slope_encoder : LMEncoder R :=
  {| enc_forward := λ input _,
       Ok ((λ r : list Z, (λ _, [(-1)%R; (-2)%R]) <$> r) <$> input);
     enc_forward_step := λ input _ m c,
       Ok ((λ r : list Z, (λ _, [(-1)%R; (-2)%R]) <$> r) <$> input, (m, c)) |}.

(** The one-unit encoder in plain-projection mode over a vocabulary of
    two. *)
Definition plain_encoder : RNNEncoder.t Z :=
  RNNEncoder.init 2 [[1]; [2]] (StackedRNNLayer_call 0 toy_layer)
    false toy_scores (λ h, h ++ h).

(** A criterion for examples: minus the score of each label that is not
    ignored, summed per sequence and over the batch. *)
Definition nll_row (crit : LabelSmoothingLoss R) (scores : list (list R))
    (labels : list Z) : R :=
  foldr Rplus 0%R
    (zip_with (λ (v : list R) (y : Z),
                 if ignored crit y then 0%R
                 else Ropp (default 0%R (v !! Z.to_nat y)))
              scores labels).

Definition nll_criterion (crit : LabelSmoothingLoss R)
    (logit : list (list (list R))) (labels : list (list Z))
  : result (R * list R) :=
  let each := zip_with (nll_row crit) logit labels in
  Ok (foldr Rplus 0%R each, each).

(** * Properties *)

(** ** Results and tensors *)

Local Arguments column : simpl never.
Local Arguments transpose : simpl never.

Lemma bind_ok_inv {A B} (m : result A) (k : A → result B) (b : B) :
  bind m k = Ok b → ∃ a, m = Ok a ∧ k a = Ok b.
Proof. destruct m as [a|e]; simpl; [eauto | discriminate]. Qed.

Lemma column_cons {A} (j : nat) (r : list A) (x : list (list A)) (a : A) :
  r !! j = Some a → column j (r :: x) = a :: column j x.
Proof. intros Hr. unfold column. simpl. by rewrite Hr. Qed.

Lemma column_fmap_rows {A B} (f : A → B → bool) (ids : list B) (xs : list A)
    (j : nat) (t : B) :
  ids !! j = Some t →
  column j ((λ l : A, (λ t : B, f l t) <$> ids) <$> xs) = (λ l, f l t) <$> xs.
Proof.
  intros Hj. induction xs as [|a xs IH]; [done|].
  rewrite !fmap_cons.
  rewrite (column_cons j _ _ (f a t)); [by rewrite IH|].
  by rewrite list_lookup_fmap, Hj.
Qed.

Lemma transpose_outer {A B} (f : A → B → bool) (ids : list B) (xs : list A) :
  xs ≠ [] →
  transpose ((λ l : A, (λ t : B, f l t) <$> ids) <$> xs)
  = (λ t : B, (λ l, f l t) <$> xs) <$> ids.
Proof.
  intros Hne. destruct xs as [|a xs]; [done|].
  set (X := (λ l : A, (λ t : B, f l t) <$> ids) <$> (a :: xs)).
  assert (HX : transpose X = (λ j, column j X) <$> seq 0 (length ids)).
  { unfold X, transpose. rewrite fmap_cons. by rewrite length_fmap. }
  rewrite HX.
  apply list_eq. intros j. rewrite !list_lookup_fmap.
  destruct (ids !! j) as [t|] eqn:Hj; simpl.
  - assert (Hlt : (j < length ids)%nat) by (by eapply lookup_lt_Some).
    rewrite (lookup_seq_lt 0 (length ids) j Hlt). simpl.
    f_equal. by apply (column_fmap_rows f ids (a :: xs)).
  - apply lookup_ge_None in Hj.
    by rewrite (lookup_seq_ge 0 (length ids) j Hj).
Qed.

Lemma column_cons_None {A} (j : nat) (r : list A) (x : list (list A)) :
  r !! j = None → column j (r :: x) = column j x.
Proof. intros Hr. unfold column. simpl. by rewrite Hr. Qed.

Lemma column_fmap {A B} (g : A → B) (j : nat) (x : list (list A)) :
  column j ((λ r : list A, g <$> r) <$> x) = g <$> column j x.
Proof.
  induction x as [|r x IH]; [done|].
  rewrite fmap_cons. destruct (r !! j) as [a|] eqn:Hr.
  - rewrite (column_cons j r x a Hr), fmap_cons.
    rewrite (column_cons j (g <$> r) _ (g a)); [by rewrite IH|].
    by rewrite list_lookup_fmap, Hr.
  - rewrite (column_cons_None j r x Hr).
    rewrite (column_cons_None j (g <$> r)); [done|].
    by rewrite list_lookup_fmap, Hr.
Qed.

Lemma transpose_fmap {A B} (g : A → B) (x : list (list A)) :
  transpose ((λ r : list A, g <$> r) <$> x)
  = (λ r : list A, g <$> r) <$> transpose x.
Proof.
  destruct x as [|r x]; [done|].
  set (X := r :: x).
  assert (H1 : transpose ((λ r : list A, g <$> r) <$> X)
               = (λ j, column j ((λ r : list A, g <$> r) <$> X))
                   <$> seq 0 (length r)).
  { unfold X, transpose. rewrite fmap_cons. by rewrite length_fmap. }
  assert (H2 : transpose X = (λ j, column j X) <$> seq 0 (length r)) by done.
  rewrite H1, H2, <- list_fmap_compose.
  apply list_fmap_ext. intros _ j _. apply column_fmap.
Qed.

Lemma column_lookup {A} (j i : nat) (x : list (list A)) :
  Forall (λ r, (j < length r)%nat) x →
  column j x !! i = (x !! i) ≫= (λ r : list A, r !! j).
Proof.
  intros Hx. revert i. induction Hx as [|r x Hr Hx IH]; intros i; [done|].
  destruct (lookup_lt_is_Some_2 r j Hr) as [a Ha].
  rewrite (column_cons j r x a Ha).
  destruct i as [|i]; simpl; [done|apply IH].
Qed.

Lemma column_length {A} (j : nat) (x : list (list A)) :
  Forall (λ r, (j < length r)%nat) x → length (column j x) = length x.
Proof.
  induction 1 as [|r x Hr Hx IH]; [done|].
  destruct (lookup_lt_is_Some_2 r j Hr) as [a Ha].
  rewrite (column_cons j r x a Ha). simpl. by rewrite IH.
Qed.

Lemma transpose_lookup {A} (n j : nat) (x : list (list A)) :
  x ≠ [] → Forall (λ r, length r = n) x → (j < n)%nat →
  transpose x !! j = Some (column j x).
Proof.
  intros Hne Hx Hj. destruct x as [|r x]; [done|].
  unfold transpose. rewrite list_lookup_fmap.
  apply Forall_cons in Hx as Hx'. destruct Hx' as [-> _].
  by rewrite (lookup_seq_lt 0 _ j Hj).
Qed.

Lemma transpose_shape {A} (n : nat) (x : list (list A)) :
  x ≠ [] → Forall (λ r, length r = n) x →
  length (transpose x) = n
  ∧ Forall (λ c, length c = length x) (transpose x).
Proof.
  intros Hne Hx. split.
  - destruct x as [|r x]; [done|]. unfold transpose.
    rewrite length_fmap, length_seq. by apply Forall_cons in Hx as [-> _].
  - apply Forall_lookup. intros j c Hc.
    assert (Hj : (j < n)%nat).
    { apply lookup_lt_Some in Hc. destruct x as [|r x]; [done|].
      unfold transpose in Hc. rewrite length_fmap, length_seq in Hc.
      by apply Forall_cons in Hx as [<- _]. }
    rewrite (transpose_lookup n j x Hne Hx Hj) in Hc. injection Hc as <-.
    apply column_length. eapply Forall_impl; [exact Hx|].
    intros r Hr. simpl in Hr. lia.
Qed.

Lemma at2_transpose {A} (n i j : nat) (x : list (list A)) :
  Forall (λ r, length r = n) x → (j < n)%nat →
  at2 (transpose x) j i = at2 x i j.
Proof.
  intros Hx Hj. destruct (decide (x = [])) as [->|Hne]; [done|].
  unfold at2. rewrite (transpose_lookup n j x Hne Hx Hj). simpl.
  apply column_lookup. eapply Forall_impl; [exact Hx|].
  intros r Hr. simpl in Hr. lia.
Qed.

Lemma transpose_single_row {A} (r : list A) :
  transpose [r] = (λ a, [a]) <$> r.
Proof.
  unfold transpose. apply list_eq. intros j. rewrite !list_lookup_fmap.
  destruct (r !! j) as [a|] eqn:Hj; simpl.
  - assert (Hlt : (j < length r)%nat) by (by eapply lookup_lt_Some).
    rewrite (lookup_seq_lt 0 _ j Hlt). simpl.
    by rewrite (column_cons j r [] a Hj).
  - apply lookup_ge_None in Hj. by rewrite (lookup_seq_ge 0 _ j Hj).
Qed.

Lemma column_singletons {A} (l : list A) :
  column 0 ((λ a, [a]) <$> l) = l.
Proof.
  induction l as [|a l IH]; [done|].
  rewrite fmap_cons. rewrite (column_cons 0 [a] _ a eq_refl). by rewrite IH.
Qed.

Lemma transpose_singletons {A} (l : list A) :
  l ≠ [] → transpose ((λ a, [a]) <$> l) = [l].
Proof.
  intros Hne. destruct l as [|a l]; [done|].
  set (X := (λ a, [a]) <$> a :: l).
  assert (H1 : transpose X = [column 0 X]).
  { unfold X, transpose. by rewrite fmap_cons. }
  rewrite H1. unfold X. by rewrite column_singletons.
Qed.

Lemma for_each_fmap {A B} (f : A → result B) (g : A → B) (l : list A) :
  Forall (λ x, f x = Ok (g x)) l → for_each f l = Ok (g <$> l).
Proof.
  induction 1 as [|x l Hx Hl IH]; [done|].
  simpl. rewrite Hx. simpl. rewrite IH. reflexivity.
Qed.

(** ** The padding mask (lines 56-60) *)

(** Row [t] of the mask holds, for every sequence of length [l], the
    one-element vector [[l < t]]. *)
Lemma build_padding_rows (seq_len : list Z) (T : Z) :
  torch_max seq_len = Ok T → 0 ≤ T →
  build_padding seq_len
  = Ok ((λ t : Z, (λ l : Z, [l <? t]) <$> seq_len) <$> seqZ 0 T).
Proof.
  intros HT H0. unfold build_padding, arange. rewrite HT. simpl.
  assert (E : (T <? 0) = false) by lia. rewrite E. simpl. f_equal.
  unfold lt_broadcast.
  rewrite (transpose_outer Z.ltb); [|by destruct seq_len].
  unfold unsqueeze2. rewrite <- list_fmap_compose.
  apply list_fmap_ext. intros _ t _. simpl.
  by rewrite <- list_fmap_compose.
Qed.

Lemma foldr_max_ge (v : list Z) (a x : Z) :
  x ∈ a :: v → x ≤ foldr Z.max a v.
Proof.
  induction v as [|y v IH]; simpl; intros Hx.
  - apply list_elem_of_singleton in Hx. lia.
  - assert (x = y ∨ x ∈ a :: v) as [->|Hin].
    { apply elem_of_cons in Hx as [->|Hx]; [right; left|].
      apply elem_of_cons in Hx as [->|Hx]; [by left|right; by right]. }
    + lia.
    + specialize (IH Hin). lia.
Qed.

Lemma foldr_max_in (v : list Z) (a : Z) : foldr Z.max a v ∈ a :: v.
Proof.
  induction v as [|y v IH]; simpl; [by left|].
  destruct (Z.max_spec y (foldr Z.max a v)) as [[_ ->]|[_ ->]].
  - apply elem_of_cons in IH as [->|IH]; [by left|right; by right].
  - right; by left.
Qed.

Lemma torch_max_ge (seq_len : list Z) (T l : Z) (b : nat) :
  torch_max seq_len = Ok T → seq_len !! b = Some l → l ≤ T.
Proof.
  destruct seq_len as [|a v]; [done|]. simpl. intros [= <-] Hb.
  apply foldr_max_ge. by eapply list_elem_of_lookup_2.
Qed.

(** The mask entry of sequence [b] at position [t] is [seq_len[b] < t]. *)
Lemma build_padding_entry (seq_len : list Z) (T l : Z) (b t : nat) :
  torch_max seq_len = Ok T → seq_len !! b = Some l → Z.of_nat t < T →
  ∃ mask, build_padding seq_len = Ok mask
          ∧ at2 mask t b = Some [l <? Z.of_nat t].
Proof.
  intros HT Hb Ht. eexists. split; [apply build_padding_rows; [done|lia]|].
  unfold at2. rewrite list_lookup_fmap.
  assert (Hs : seqZ 0 T !! t = Some (Z.of_nat t)).
  { apply lookup_seqZ. lia. }
  rewrite Hs. simpl. by rewrite list_lookup_fmap, Hb.
Qed.

(** C2: with lengths [[1, 2]] the code's mask for the first sequence is
    false at position 1, where the mask of the data model is true: line
    58 compares [seq_len < t], the data model has [t ≥ seq_len]. *)
Theorem padding_mask_off_by_one :
  build_padding [1; 2] = Ok [[[false]; [false]]; [[false]; [false]]]
  ∧ spec_padding [1; 2] 2 = [[[false]; [false]]; [[true]; [false]]].
Proof. split; reflexivity. Qed.

(** ** The plain projection mode of [RNNEncoder.forward] *)

(** Line 70 passes [dim=2] to the [nn.LogSoftmax] of line 44, whose
    [forward] takes no such keyword. *)
Lemma log_softmax_keyword_raises {F} (lsm : list F → list F) (dim d : Z)
    (o : list (list (list F))) :
  log_softmax_call lsm (LogSoftmax dim) o (Some d) = Raise TypeError.
Proof. reflexivity. Qed.

(** C3: an encoder built without adaptive softmax never returns from
    [forward], whatever the batch; on the one-token batch [[0]] the
    exception is the [TypeError] of line 70. *)
Theorem forward_plain_mode_raises :
  (∀ (F : Type) (lsm : list F → list F) (vocab_size : Z)
     (table : Embedding F) (rnn : StackedRNN F) (a : AdaptiveLogSoftmax F)
     (lin : Linear F) (input : list (list Z)) (seq_len : list Z),
      is_ok (RNNEncoder.forward lsm
               (RNNEncoder.init vocab_size table rnn false a lin)
               input seq_len) = false)
  ∧ (∀ lsm : list Z → list Z,
      RNNEncoder.forward lsm (toy_encoder false) [[0]] [1] = Raise TypeError).
Proof.
  split; [|reflexivity].
  intros. unfold RNNEncoder.forward. simpl.
  destruct (Embedding_call table input); [|done]. simpl.
  destruct (build_padding seq_len); [|done]. simpl.
  destruct (rnn _ _ _); [|done]. reflexivity.
Qed.

(** ** [RNNLM.forward] *)

Section LMProperties.
Context {F : Type} `{FloatOps F}.
Variable criterion_call :
  LabelSmoothingLoss F → list (list (list F)) → list (list Z) →
  result (F * list F).

Lemma batch_sizes_match_spec (input : list (list Z)) (input_length : list Z)
    (labels : list (list Z)) (labels_length : list Z) :
  RNNLM.batch_sizes_match input input_length labels labels_length = true
  ↔ length input = length input_length
    ∧ length input_length = length labels
    ∧ length labels = length labels_length.
Proof.
  unfold RNNLM.batch_sizes_match.
  rewrite !andb_true_iff, !Nat.eqb_eq. tauto.
Qed.

(** C7: the call raises [AssertionError] exactly when the four batch
    sizes are not all equal; when they are equal the check passes and
    the call is the rest of the body. *)
Theorem forward_checks_batch_sizes (self : RNNLM.t F)
    (input : list (list Z)) (input_length : list Z)
    (labels : list (list Z)) (labels_length : list Z) :
  let same := length input = length input_length
              ∧ length input_length = length labels
              ∧ length labels = length labels_length in
  (same →
     RNNLM.check_batch input input_length labels labels_length = Ok ()
     ∧ RNNLM.forward criterion_call self input input_length labels labels_length
       = RNNLM.forward_body criterion_call self input input_length labels
           labels_length)
  ∧ (¬ same →
     RNNLM.check_batch input input_length labels labels_length
     = Raise AssertionError
     ∧ RNNLM.forward criterion_call self input input_length labels labels_length
       = Raise AssertionError).
Proof.
  intros same. unfold RNNLM.forward, RNNLM.check_batch.
  destruct (RNNLM.batch_sizes_match input input_length labels labels_length)
    eqn:E.
  - apply batch_sizes_match_spec in E. split; [done|]. intros Hn. by destruct Hn.
  - split; [|done]. intros Hs. apply batch_sizes_match_spec in Hs. congruence.
Qed.

(** The flag that picks the batch perplexity is the one the criterion
    was built with. *)
Lemma init_modes_agree (vocab_size : Z) (lm_encoder : LMEncoder F)
    (lsm_weight : F) (norm : bool) :
  normalize_length (RNNLM.criterion (RNNLM.init vocab_size lm_encoder lsm_weight norm))
  = RNNLM.length_normalized_loss (RNNLM.init vocab_size lm_encoder lsm_weight norm).
Proof. reflexivity. Qed.

(** C4: when the encoder and the criterion return, [forward] returns the
    criterion's scalar loss, [exp] of each per-sequence loss, and a batch
    perplexity that is [exp loss] under length-normalised loss and
    otherwise [loss * batch_size / total], where [total] is the 64-bit
    sum of [labels_length], which is the plain sum whenever that fits. *)
Theorem forward_perplexity (self : RNNLM.t F)
    (input : list (list Z)) (input_length : list Z)
    (labels : list (list Z)) (labels_length : list Z)
    (logit : list (list (list F))) (loss : F) (each : list F) :
  RNNLM.batch_sizes_match input input_length labels labels_length = true →
  enc_forward (RNNLM.model self) input input_length = Ok logit →
  criterion_call (RNNLM.criterion self) logit labels = Ok (loss, each) →
  let total := (foldr Z.add 0 labels_length + 2 ^ 63) mod 2 ^ 64 - 2 ^ 63 in
  RNNLM.forward criterion_call self input input_length labels labels_length
  = Ok (loss, fexp <$> each,
        if RNNLM.length_normalized_loss self then fexp loss
        else fdiv (fmul loss (of_int (Z.of_nat (length input)))) (of_int total))
  ∧ (- 2 ^ 63 ≤ foldr Z.add 0 labels_length < 2 ^ 63 →
     total = foldr Z.add 0 labels_length).
Proof.
  intros Hb Hm Hc total. split.
  - unfold RNNLM.forward, RNNLM.check_batch.
    rewrite Hb. simpl. unfold RNNLM.forward_body.
    rewrite Hm. simpl. rewrite Hc. reflexivity.
  - intros Hr. unfold total. rewrite Z.mod_small; lia.
Qed.

(** Whatever the constructor is given, the criterion's ignore id is -1. *)
Lemma init_ignore_id (vocab_size : Z) (lm_encoder : LMEncoder F)
    (lsm_weight : F) (length_normalized_loss : bool) (label : Z) :
  let self := RNNLM.init vocab_size lm_encoder lsm_weight
                length_normalized_loss in
  padding_idx (RNNLM.criterion self) = -1
  ∧ (ignored (RNNLM.criterion self) label = true ↔ label = -1).
Proof.
  simpl. split; [reflexivity|]. unfold ignored. simpl. apply Z.eqb_eq.
Qed.
End LMProperties.

(** A call that returns: two sequences, one label ignored, summed (not
    length-normalised) loss 5 over 3 label tokens. *)
Lemma forward_perplexity_witness :
  ∃ (loss : R) (each : list R),
    RNNLM.forward nll_criterion (RNNLM.init 2 slope_encoder 0%R false)
      [[0; 1]; [1; 0]] [2; 2] [[1; -1]; [0; 1]] [1; 2]
    = Ok (loss, fexp <$> each, fdiv (fmul loss (of_int 2)) (of_int 3))
    ∧ loss = 5%R.
Proof.
  eexists _, _. split.
  - eapply (proj1 (forward_perplexity nll_criterion
                     (RNNLM.init 2 slope_encoder 0%R false)
                     [[0; 1]; [1; 0]] [2; 2] [[1; -1]; [0; 1]] [1; 2]
                     _ _ _ eq_refl eq_refl eq_refl)).
  - unfold nll_row, ignored. simpl. lra.
Defined.

(** ** [forward_step]: the state a caller threads *)

(** C9: a single step that returns [(o, m', c')] passed the pair
    [(state_m, state_c)] to the stacked layer as its prior state and got
    [(m', c')] back from it as the new one; the cell type plays no part. *)
Theorem forward_step_state_pair {F : Type} (lsm : list F → list F)
    (enc : RNNEncoder.t F) (vocab_size : Z) (lsm_weight : F) (norm : bool)
    (input : list (list Z)) (seq_len : list Z)
    (state_m state_c o m' c' : list (list (list F))) :
  RNNLM.forward_step
    (RNNLM.init vocab_size (encoder_module lsm enc) lsm_weight norm)
    input seq_len state_m state_c = Ok (o, m', c') →
  ∃ emb padding out,
    Embedding_call (RNNEncoder.lookup_table enc) input = Ok emb
    ∧ build_padding seq_len = Ok padding
    ∧ RNNEncoder.stacked_rnn enc (transpose emb) padding
        (Some (state_m, state_c)) = Ok (out, (m', c')).
Proof.
  unfold RNNLM.forward_step. simpl. intros Hs.
  apply bind_ok_inv in Hs as ([o1 s1] & Henc & Hret).
  simpl in Hret. injection Hret as -> Hm Hc.
  unfold RNNEncoder.forward_step in Henc.
  apply bind_ok_inv in Henc as (emb & Hemb & Henc).
  apply bind_ok_inv in Henc as (padding & Hpad & Henc).
  apply bind_ok_inv in Henc as ([out s] & Hrnn & Henc).
  simpl in Henc.
  apply bind_ok_inv in Henc as (o2 & _ & Henc).
  apply bind_ok_inv in Henc as (o3 & _ & Henc).
  injection Henc as _ ->.
  exists emb, padding, out. repeat split; [done..|].
  rewrite Hrnn. destruct s1 as [m1 c1]. simpl in *. by subst.
Qed.

(** One step of the one-unit encoder on a batch of two, from zero state. *)
Lemma forward_step_state_pair_witness :
  ∃ emb padding out,
    Embedding_call (RNNEncoder.lookup_table (toy_encoder true)) [[0]; [1]]
    = Ok emb
    ∧ build_padding [1; 1] = Ok padding
    ∧ RNNEncoder.stacked_rnn (toy_encoder true) (transpose emb) padding
        (Some ([[[0]; [0]]], [[[0]; [0]]]))
      = Ok (out, ([[[1]; [2]]], [[[0]; [0]]])).
Proof.
  apply (forward_step_state_pair (λ v, v) (toy_encoder true) 3 0 false
           [[0]; [1]] [1; 1] [[[0]; [0]]] [[[0]; [0]]] [[[1]]; [[2]]]).
  reflexivity.
Defined.

(** ** The stacked recurrent layer: shapes and masked positions *)

Section StackedRNNProperties.
Context {F : Type}.
Implicit Types (c : Cell F) (cs : list (Cell F)) (xs : list (list F)).
Implicit Types (ms : list (list bool)) (s : list (row_state F)).
Implicit Types (st : list (list (row_state F))).

Lemma layer_step_lookup c xs ms s (b : nat) :
  layer_step c xs ms s !! b =
  match xs !! b, ms !! b, s !! b with
  | Some x, Some m, Some old => Some (select (mask_bit m) old (c x old))
  | _, _, _ => None
  end.
Proof.
  unfold layer_step. rewrite !lookup_zip_with.
  destruct (xs !! b), (ms !! b), (s !! b); reflexivity.
Qed.

Lemma layer_step_length c xs ms s (B : nat) :
  length xs = B → length ms = B → length s = B →
  length (layer_step c xs ms s) = B.
Proof.
  intros Hx Hm Hs. unfold layer_step.
  rewrite length_zip_with, length_zip. lia.
Qed.

Lemma time_step_wf cs xs ms st (B : nat) :
  length xs = B → length ms = B → wf_state cs B st →
  wf_state cs B (time_step cs xs ms st).2
  ∧ length (time_step cs xs ms st).1 = B.
Proof.
  revert xs st. induction cs as [|c cs IH]; intros xs st Hx Hm [Hl Hf].
  - destruct st; [|done]. simpl. repeat split; done.
  - destruct st as [|s st]; [done|]. simpl in Hl.
    apply Forall_cons in Hf as [Hs Hf]. simpl.
    pose proof (layer_step_length c xs ms s B Hx Hm Hs) as Hs'.
    destruct (IH (fst <$> layer_step c xs ms s) st) as [[Hl' Hf'] Ho].
    { by rewrite length_fmap. }
    { done. }
    { split; [lia|done]. }
    repeat split; simpl; [lia| |done].
    by apply Forall_cons.
Qed.

(** Where the mask is true the row keeps its state, at every layer. *)
Lemma time_step_hold cs xs ms st (B b l : nat) (m : list bool) :
  length xs = B → length ms = B → wf_state cs B st →
  ms !! b = Some m → mask_bit m = true →
  at2 (time_step cs xs ms st).2 l b = at2 st l b.
Proof.
  revert xs st l. induction cs as [|c cs IH]; intros xs st l Hx Hm [Hl Hf] Hb Hbit.
  - by destruct st.
  - destruct st as [|s st]; [done|]. simpl in Hl.
    apply Forall_cons in Hf as [Hs Hf]. simpl.
    pose proof (layer_step_length c xs ms s B Hx Hm Hs) as Hs'.
    destruct l as [|l].
    + unfold at2. simpl. rewrite layer_step_lookup, Hb, Hbit.
      assert (Hlt : (b < B)%nat).
      { rewrite <- Hm. by eapply lookup_lt_Some. }
      destruct (lookup_lt_is_Some_2 xs b) as [x ->]; [lia|].
      by destruct (s !! b).
    + unfold at2 in *. simpl.
      apply (IH (fst <$> layer_step c xs ms s) st l);
        [by rewrite length_fmap|done|split; [lia|done]|done|done].
Qed.

Lemma states_after_0 cs emb mask st : states_after cs emb mask st 0 = st.
Proof. unfold states_after. by rewrite !take_0. Qed.

Lemma states_after_S cs emb mask st (t : nat) xs ms :
  emb !! t = Some xs → mask !! t = Some ms →
  states_after cs emb mask st (S t)
  = (time_step cs xs ms (states_after cs emb mask st t)).2.
Proof.
  unfold states_after. revert emb mask st.
  induction t as [|t IH]; intros [|x0 emb] [|m0 mask] st He Hm;
    simplify_eq/=.
  - done.
  - by apply IH.
Qed.

Lemma states_after_stop cs emb mask st (t : nat) :
  emb !! t = None ∨ mask !! t = None →
  states_after cs emb mask st (S t) = states_after cs emb mask st t.
Proof.
  unfold states_after. revert emb mask st.
  induction t as [|t IH]; intros [|x0 emb] [|m0 mask] st Hn;
    try (destruct Hn; simplify_eq/=; done).
  simpl in *. by apply IH.
Qed.

Lemma states_after_wf cs emb mask st (B t : nat) :
  Forall (λ xs, length xs = B) emb → Forall (λ ms, length ms = B) mask →
  wf_state cs B st → wf_state cs B (states_after cs emb mask st t).
Proof.
  intros He Hm Hst. induction t as [|t IH].
  - by rewrite states_after_0.
  - destruct (emb !! t) as [xs|] eqn:Ex;
      [destruct (mask !! t) as [ms|] eqn:Em|].
    + rewrite (states_after_S _ _ _ _ _ xs ms Ex Em).
      apply time_step_wf; [|
        |done].
      * exact (Forall_lookup_1 _ _ _ _ He Ex).
      * exact (Forall_lookup_1 _ _ _ _ Hm Em).
    + rewrite states_after_stop; [done|by right].
    + rewrite states_after_stop; [done|by left].
Qed.

(** Over a stretch of timesteps at which row [b] is masked, the state of
    that row does not move. *)
Lemma states_after_hold cs emb mask st (B b l t0 t : nat) :
  Forall (λ xs, length xs = B) emb → Forall (λ ms, length ms = B) mask →
  wf_state cs B st → (t0 ≤ t)%nat →
  (∀ t' : nat, (t0 ≤ t' < t)%nat → ∃ m, at2 mask t' b = Some m ∧ mask_bit m = true) →
  at2 (states_after cs emb mask st t) l b
  = at2 (states_after cs emb mask st t0) l b.
Proof.
  intros He Hm Hst Hle. induction Hle as [|t Hle IH]; intros Hmask; [done|].
  rewrite <- IH by (intros t' Ht'; apply Hmask; lia).
  destruct (Hmask t) as (m & Hat & Hbit); [lia|].
  unfold at2 in Hat. destruct (mask !! t) as [ms|] eqn:Em; [|done].
  simpl in Hat.
  destruct (emb !! t) as [xs|] eqn:Ex.
  - rewrite (states_after_S _ _ _ _ _ xs ms Ex Em).
    apply (time_step_hold _ _ _ _ B b l m); try done.
    + exact (Forall_lookup_1 _ _ _ _ He Ex).
    + exact (Forall_lookup_1 _ _ _ _ Hm Em).
    + by apply states_after_wf.
  - rewrite states_after_stop; [done|by left].
Qed.

Lemma forallb_Forall {A} (f : A → bool) (l : list A) :
  forallb f l = true ↔ Forall (λ x, f x = true) l.
Proof.
  induction l as [|a l IH]; simpl.
  - split; [constructor|done].
  - rewrite andb_true_iff, IH, Forall_cons. done.
Qed.

Lemma tensor2_ok_spec {A} (rows cols : nat) (x : list (list A)) :
  tensor2_ok rows cols x = true
  ↔ length x = rows ∧ Forall (λ r, length r = cols) x.
Proof.
  unfold tensor2_ok. rewrite andb_true_iff, Nat.eqb_eq, forallb_Forall.
  apply and_iff_compat_l. apply Forall_iff. intros r. apply Nat.eqb_eq.
Qed.

Lemma shapes_ok_spec (L : nat) (emb : list (list (list F)))
    (mask : list (list (list bool))) (state : option (rnn_state F)) :
  shapes_ok L emb mask state = true ↔
  Forall (λ xs, length xs = batch_of emb) emb
  ∧ (length mask = length emb ∧ Forall (λ ms, length ms = batch_of emb) mask)
  ∧ Forall (Forall (λ m : list bool, length m = 1%nat)) mask
  ∧ match state with
    | Some (sm, sc) =>
        (length sm = L ∧ Forall (λ r, length r = batch_of emb) sm)
        ∧ (length sc = L ∧ Forall (λ r, length r = batch_of emb) sc)
    | None => True
    end.
Proof.
  unfold shapes_ok. rewrite !andb_true_iff, tensor2_ok_spec.
  assert (H1 : forallb (λ xs : list (list F), (length xs =? batch_of emb)%nat) emb
               = true ↔ Forall (λ xs, length xs = batch_of emb) emb).
  { rewrite forallb_Forall. apply Forall_iff. intros xs. apply Nat.eqb_eq. }
  assert (H2 : forallb (forallb (λ m : list bool, (length m =? 1)%nat)) mask
               = true
               ↔ Forall (Forall (λ m : list bool, length m = 1%nat)) mask).
  { rewrite forallb_Forall. apply Forall_iff. intros ms.
    rewrite forallb_Forall. apply Forall_iff. intros m. apply Nat.eqb_eq. }
  assert (H3 : match state with
               | Some (sm, sc) =>
                   tensor2_ok L (batch_of emb) sm && tensor2_ok L (batch_of emb) sc
               | None => true
               end = true
               ↔ match state with
                 | Some (sm, sc) =>
                     (length sm = L ∧ Forall (λ r, length r = batch_of emb) sm)
                     ∧ (length sc = L ∧ Forall (λ r, length r = batch_of emb) sc)
                 | None => True
                 end).
  { destruct state as [[sm sc]|]; [|done].
    by rewrite andb_true_iff, !tensor2_ok_spec. }
  tauto.
Qed.

Lemma pack_wf cs (B : nat) (sm sc : list (list (list F))) :
  length sm = length cs → Forall (λ r, length r = B) sm →
  length sc = length cs → Forall (λ r, length r = B) sc →
  wf_state cs B (pack (sm, sc)).
Proof.
  intros Hm Hfm Hc Hfc. unfold pack, wf_state. simpl. split.
  - rewrite length_zip_with. lia.
  - apply Forall_lookup. intros i s. rewrite lookup_zip_with.
    destruct (sm !! i) as [a|] eqn:Ea; [|done]. simpl.
    destruct (sc !! i) as [c|] eqn:Ec; [|done]. simpl. intros [= <-].
    rewrite length_zip_with.
    rewrite (Forall_lookup_1 _ _ _ _ Hfm Ea), (Forall_lookup_1 _ _ _ _ Hfc Ec).
    lia.
Qed.

Lemma zero_state_wf (zero : F) cs (B H : nat) :
  wf_state cs B (zero_state zero (length cs) B H).
Proof.
  unfold zero_state, wf_state. split.
  - apply length_replicate.
  - apply Forall_replicate. apply length_replicate.
Qed.

Lemma initial_state_wf (zero : F) (layer : StackedRNNLayer F)
    (emb : list (list (list F))) (mask : list (list (list bool)))
    (state : option (rnn_state F)) :
  shapes_ok (length (cells layer)) emb mask state = true →
  wf_state (cells layer) (batch_of emb) (initial_state zero layer emb state).
Proof.
  intros Hok. apply shapes_ok_spec in Hok as (_ & _ & _ & Hst).
  destruct state as [[sm sc]|]; simpl.
  - destruct Hst as [[? ?] [? ?]]. by apply pack_wf.
  - apply zero_state_wf.
Qed.

Lemma states_after_all cs emb mask st :
  length mask = length emb →
  states_after cs emb mask st (length emb) = (run cs emb mask st).2.
Proof.
  intros Hl. unfold states_after.
  rewrite <- Hl at 2. by rewrite !firstn_all.
Qed.

(** With the mask [forward] builds, the state of a sequence of length
    [l] stops moving once [l + 1] timesteps are done: positions
    [0 .. l] are unmasked, every later one is masked. *)
Lemma forward_mask_holds cs emb st (seq_len : list Z) (T l : Z)
    (b l0 t : nat) :
  torch_max seq_len = Ok T → seq_len !! b = Some l → 0 ≤ l →
  Forall (λ xs, length xs = length seq_len) emb →
  wf_state cs (length seq_len) st →
  (Z.to_nat l + 1 ≤ t)%nat → Z.of_nat t ≤ T →
  let mask := (λ t : Z, (λ l : Z, [l <? t]) <$> seq_len) <$> seqZ 0 T in
  at2 (states_after cs emb mask st t) l0 b
  = at2 (states_after cs emb mask st (Z.to_nat l + 1)) l0 b.
Proof.
  intros Hmax Hb Hl He Hwf Hle HtT mask.
  apply (states_after_hold _ _ _ _ (length seq_len)); try done.
  - unfold mask. apply Forall_fmap, Forall_forall. intros t' _. simpl.
    by rewrite length_fmap.
  - intros t' Ht'. exists [true]. split; [|done].
    unfold at2, mask. rewrite list_lookup_fmap.
    assert (Hs : seqZ 0 T !! t' = Some (Z.of_nat t')).
    { apply lookup_seqZ. lia. }
    rewrite Hs. simpl. rewrite list_lookup_fmap, Hb. simpl.
    do 2 f_equal. lia.
Qed.

(** In a call of the stacked layer, let row [b] be masked at every
    timestep from [t0] up to, not including, [t].  Then at every layer
    [l] the state of row [b] after [t] timesteps is its state after
    [t0] timesteps, that is, the one it had when its last unmasked
    position was done. *)
Lemma padded_positions_hold_state (zero : F) (layer : StackedRNNLayer F)
    (emb : list (list (list F))) (mask : list (list (list bool)))
    (state : option (rnn_state F)) (t0 t l b : nat) :
  shapes_ok (length (cells layer)) emb mask state = true →
  (t0 ≤ t)%nat →
  (∀ t' : nat, (t0 ≤ t' < t)%nat → at2 mask t' b = Some [true]) →
  at2 (states_after (cells layer) emb mask
         (initial_state zero layer emb state) t) l b
  = at2 (states_after (cells layer) emb mask
           (initial_state zero layer emb state) t0) l b.
Proof.
  intros Hok Hle Hmask.
  pose proof (initial_state_wf zero layer emb mask state Hok) as Hwf.
  apply shapes_ok_spec in Hok as (He & [_ Hm] & _ & _).
  apply (states_after_hold _ _ _ _ (batch_of emb)); try done.
  intros t' Ht'. exists [true]. split; [by apply Hmask|done].
Qed.

(** The contract of section 4.2 at the level of the layer: over any mask,
    one pass over a sequence is a pass over its first part followed, from
    the state that returned, by a pass over the rest. *)
Lemma run_app cs emb1 emb2 mask1 mask2 st :
  length emb1 = length mask1 →
  run cs (emb1 ++ emb2) (mask1 ++ mask2) st
  = ((run cs emb1 mask1 st).1 ++ (run cs emb2 mask2 (run cs emb1 mask1 st).2).1,
     (run cs emb2 mask2 (run cs emb1 mask1 st).2).2).
Proof.
  revert mask1 st. induction emb1 as [|xs emb1 IH]; intros [|ms mask1] st Hl;
    simplify_eq/=.
  - by destruct (run cs emb2 mask2 st).
  - by rewrite IH.
Qed.

(** *** Rows do not interfere *)

Lemma run_output_lookup cs emb mask st (t : nat) xs ms :
  emb !! t = Some xs → mask !! t = Some ms →
  (run cs emb mask st).1 !! t
  = Some (time_step cs xs ms (states_after cs emb mask st t)).1.
Proof.
  unfold states_after. revert emb mask st.
  induction t as [|t IH]; intros [|x0 emb] [|m0 mask] st He Hm;
    simplify_eq/=; [done|].
  by apply IH.
Qed.

Lemma run_output_length cs emb mask st :
  length emb = length mask → length (run cs emb mask st).1 = length emb.
Proof.
  revert mask st. induction emb as [|x0 emb IH]; intros [|m0 mask] st Hl;
    simplify_eq/=; [done|].
  f_equal. by apply IH.
Qed.

Lemma agree_at_refl (b : nat) st : agree_at b st st.
Proof. unfold agree_at. induction st; by constructor. Qed.

Lemma time_step_agree cs xs xs' ms ms' st st' (b : nat) :
  xs !! b = xs' !! b → ms !! b = ms' !! b → agree_at b st st' →
  (time_step cs xs ms st).1 !! b = (time_step cs xs' ms' st').1 !! b
  ∧ agree_at b (time_step cs xs ms st).2 (time_step cs xs' ms' st').2.
Proof.
  revert xs xs' st st'.
  induction cs as [|c cs IH]; intros xs xs' st st' Hx Hm Hst.
  - split; [by destruct st, st'|]. destruct st, st'; constructor.
  - destruct Hst as [|s s' st st' Hs Hst]; [split; [done|constructor]|].
    simpl.
    assert (Hl : layer_step c xs ms s !! b = layer_step c xs' ms' s' !! b).
    { rewrite (layer_step_lookup c xs ms s b).
      rewrite (layer_step_lookup c xs' ms' s' b).
      by rewrite Hx, Hm, Hs. }
    destruct (IH (fst <$> layer_step c xs ms s)
                 (fst <$> layer_step c xs' ms' s') st st') as [Ho Ha].
    { rewrite (list_lookup_fmap fst (layer_step c xs ms s) b).
      rewrite (list_lookup_fmap fst (layer_step c xs' ms' s') b).
      by rewrite Hl. }
    { done. }
    { done. }
    split; [done|]. by constructor.
Qed.

Lemma states_after_agree cs emb mask mask' st (b t : nat) :
  length mask = length mask' →
  (∀ t' : nat, (t' < t)%nat → at2 mask t' b = at2 mask' t' b) →
  agree_at b (states_after cs emb mask st t) (states_after cs emb mask' st t).
Proof.
  intros Hl. induction t as [|t IH]; intros Hmask.
  - rewrite !states_after_0. apply agree_at_refl.
  - specialize (IH (λ t' Ht', Hmask t' (Nat.lt_lt_succ_r _ _ Ht'))).
    destruct (emb !! t) as [xs|] eqn:Ex;
      [|rewrite !states_after_stop by (by left); done].
    destruct (mask !! t) as [ms|] eqn:Em.
    + destruct (lookup_lt_is_Some_2 mask' t) as [ms' Em'].
      { rewrite <- Hl. by eapply lookup_lt_Some. }
      rewrite (states_after_S _ _ _ _ _ xs ms Ex Em).
      rewrite (states_after_S _ _ _ _ _ xs ms' Ex Em').
      apply time_step_agree; [done| |done].
      specialize (Hmask t (Nat.lt_succ_diag_r t)).
      unfold at2 in Hmask. by rewrite Em, Em' in Hmask.
    + assert (Em' : mask' !! t = None).
      { apply lookup_ge_None. rewrite <- Hl. by apply lookup_ge_None. }
      rewrite !states_after_stop by (by right). done.
Qed.

(** The output of row [b] at time [t] depends on the masks only through
    the entries of row [b] up to time [t]. *)
Lemma run_output_agree cs emb mask mask' st (b t : nat) xs ms ms' :
  length mask = length mask' →
  emb !! t = Some xs → mask !! t = Some ms → mask' !! t = Some ms' →
  (∀ t' : nat, (t' ≤ t)%nat → at2 mask t' b = at2 mask' t' b) →
  at2 (run cs emb mask st).1 t b = at2 (run cs emb mask' st).1 t b.
Proof.
  intros Hl Ex Em Em' Hmask. unfold at2.
  rewrite (run_output_lookup _ _ _ _ _ xs ms Ex Em).
  rewrite (run_output_lookup _ _ _ _ _ xs ms' Ex Em'). simpl.
  apply time_step_agree; [done| |].
  - specialize (Hmask t (Nat.le_refl t)).
    unfold at2 in Hmask. by rewrite Em, Em' in Hmask.
  - apply states_after_agree; [done|]. intros t' Ht'. apply Hmask. lia.
Qed.

Lemma run_output_shape cs emb mask st (B : nat) :
  length emb = length mask →
  Forall (λ xs, length xs = B) emb → Forall (λ ms, length ms = B) mask →
  wf_state cs B st →
  Forall (λ o, length o = B) (run cs emb mask st).1.
Proof.
  intros Hl He Hm Hst. apply Forall_lookup. intros t o Ho.
  assert (Ht : (t < length emb)%nat).
  { rewrite <- (run_output_length cs emb mask st Hl). by eapply lookup_lt_Some. }
  destruct (lookup_lt_is_Some_2 emb t Ht) as [xs Ex].
  destruct (lookup_lt_is_Some_2 mask t) as [ms Em]; [lia|].
  rewrite (run_output_lookup _ _ _ _ _ xs ms Ex Em) in Ho. injection Ho as <-.
  apply time_step_wf.
  - exact (Forall_lookup_1 _ _ _ _ He Ex).
  - exact (Forall_lookup_1 _ _ _ _ Hm Em).
  - by apply states_after_wf.
Qed.

Lemma pack_unpack st : pack (unpack st) = st.
Proof.
  unfold pack, unpack. simpl. induction st as [|s st IH]; [done|].
  rewrite !fmap_cons. simpl. rewrite IH. f_equal.
  induction s as [|[m c] s IHs]; [done|].
  rewrite !fmap_cons. simpl. by rewrite IHs.
Qed.
End StackedRNNProperties.

(** The one-unit layer on a batch of two over three timesteps, the first
    row masked from position 1 on. *)
Lemma padded_positions_hold_state_witness :
  at2 (states_after (cells toy_layer) toy_emb toy_mask
         (initial_state 0 toy_layer toy_emb None) 3) 0 0
  = at2 (states_after (cells toy_layer) toy_emb toy_mask
           (initial_state 0 toy_layer toy_emb None) 1) 0 0.
Proof.
  apply (padded_positions_hold_state 0 toy_layer toy_emb toy_mask None 1 3 0 0).
  - reflexivity.
  - lia.
  - intros t' Ht'. assert (t' = 1 ∨ t' = 2)%nat as [->| ->] by lia; reflexivity.
Defined.

(** ** The ignore id in the loss *)







(** ** Padded positions through [forward] *)

(** C5: through [forward] itself, on two sequences of lengths 1 and 3.
    Position 1 of the first sequence is padding, but the mask of lines
    56-60 is false there (it first becomes true at position 2), so the
    layer applies a transition at a padded position: the state goes 1, 2,
    2, and what is held where the mask is true is the state after the
    padded position 1, not the state at the last valid position 0. *)
Theorem padded_position_advances_state :
  ∃ emb mask,
    Embedding_call toy_table [[0; 0; 0]; [1; 2; 0]] = Ok emb
    ∧ build_padding [1; 3] = Ok mask
    ∧ (∀ lsm : list Z → list Z,
         RNNEncoder.forward lsm (toy_encoder true) [[0; 0; 0]; [1; 2; 0]] [1; 3]
         = Ok [[[1]; [2]; [2]]; [[2]; [5]; [6]]])
    ∧ at2 mask 1 0 = Some [false]
    ∧ at2 mask 2 0 = Some [true]
    ∧ at2 (states_after (cells toy_layer) (transpose emb) mask
             (initial_state 0 toy_layer (transpose emb) None) 1) 0 0
      = Some ([1], [0])
    ∧ at2 (states_after (cells toy_layer) (transpose emb) mask
             (initial_state 0 toy_layer (transpose emb) None) 2) 0 0
      = Some ([2], [0])
    ∧ at2 (states_after (cells toy_layer) (transpose emb) mask
             (initial_state 0 toy_layer (transpose emb) None) 3) 0 0
      = Some ([2], [0]).
Proof.
  eexists _, _. split; [reflexivity|]. split; [reflexivity|].
  repeat split; reflexivity.
Qed.

(** ** Single steps against the full-sequence pass *)

Lemma column_Forall {A} (P : A → Prop) (j : nat) (x : list (list A)) :
  Forall (Forall P) x → Forall P (column j x).
Proof.
  induction 1 as [|r x Hr Hx IH]; [constructor|].
  destruct (r !! j) as [a|] eqn:Hj.
  - rewrite (column_cons j r x a Hj). constructor; [|done].
    exact (Forall_lookup_1 _ _ _ _ Hr Hj).
  - by rewrite (column_cons_None j r x Hj).
Qed.

Lemma transpose_Forall {A} (P : A → Prop) (x : list (list A)) :
  Forall (Forall P) x → Forall (Forall P) (transpose x).
Proof.
  intros Hx. destruct x as [|r x]; [constructor|].
  unfold transpose. apply Forall_fmap, Forall_forall. intros j _.
  by apply column_Forall.
Qed.

Lemma at2_fmap {A B} (g : A → B) (x : list (list A)) (i j : nat) :
  at2 ((λ r : list A, g <$> r) <$> x) i j = g <$> at2 x i j.
Proof.
  unfold at2. rewrite list_lookup_fmap.
  destruct (x !! i) as [r|]; simpl; [apply list_lookup_fmap|done].
Qed.

(** A step is called with lengths whose maximum is 1, none negative: its
    mask is one row of [false]. *)
Lemma build_padding_step (step_len : list Z) :
  torch_max step_len = Ok 1 → Forall (λ l, 0 ≤ l) step_len →
  build_padding step_len = Ok [replicate (length step_len) [false]].
Proof.
  intros Hmax Hpos. rewrite (build_padding_rows step_len 1 Hmax) by lia.
  change (seqZ 0 1) with [0].
  assert (Hrow : (λ l : Z, [l <? 0]) <$> step_len
                 = replicate (length step_len) [false]).
  { clear Hmax. induction Hpos as [|l v Hl Hv IH]; [done|].
    rewrite fmap_cons, IH. simpl. do 2 f_equal. lia. }
  simpl. by rewrite Hrow.
Qed.

Section StepsAgainstForward.
Context {F : Type}.
Variables (lsm : list F → list F) (zero : F).
Variables (layer : StackedRNNLayer F) (vocab_size : Z) (table : Embedding F).
Variables (a : AdaptiveLogSoftmax F) (lin : Linear F).

(** The encoder in adaptive-softmax mode over the stacked layer. *)
Local Abbreviation enc :=
  (RNNEncoder.init vocab_size table (StackedRNNLayer_call zero layer) true a lin).

Lemma embed_ok (i : Z) :
  in_vocab table i → embed table i = Ok (emb_row table i).
Proof.
  unfold in_vocab, embed, emb_row. intros [H0 H1].
  assert (E0 : (0 <=? i) = true) by lia.
  assert (E1 : (i <? Z.of_nat (length table)) = true) by lia.
  destruct (lookup_lt_is_Some_2 table (Z.to_nat i)) as [row Hrow]; [lia|].
  by rewrite E0, E1, Hrow.
Qed.

Lemma Embedding_call_ok (input : list (list Z)) :
  Forall (Forall (in_vocab table)) input →
  Embedding_call table input
  = Ok ((λ r : list Z, emb_row table <$> r) <$> input).
Proof.
  intros Hin. unfold Embedding_call. apply for_each_fmap.
  eapply Forall_impl; [exact Hin|]. intros r Hr. simpl in *.
  apply for_each_fmap. eapply Forall_impl; [exact Hr|].
  intros i Hi. by apply embed_ok.
Qed.

Lemma unpack_shape cs (B : nat) (st : list (list (row_state F))) :
  wf_state cs B st →
  (length (unpack st).1 = length cs
   ∧ Forall (λ r, length r = B) (unpack st).1)
  ∧ (length (unpack st).2 = length cs
     ∧ Forall (λ r, length r = B) (unpack st).2).
Proof.
  intros [Hl Hf]. unfold unpack. simpl. rewrite !length_fmap.
  repeat split; try done; apply Forall_fmap; eapply Forall_impl; try exact Hf;
    intros s Hs; simpl in *; by rewrite length_fmap.
Qed.

(** One call of [forward_step] on one-token sequences is one [time_step]
    under the mask row [length < 0]. *)
Lemma forward_step_ok (col step_len : list Z) (B : nat)
    (st : list (list (row_state F))) :
  (0 < B)%nat → length col = B → Forall (in_vocab table) col →
  length step_len = B → torch_max step_len = Ok 1 →
  wf_state (cells layer) B st →
  RNNEncoder.forward_step lsm enc ((λ i, [i]) <$> col) step_len
    (unpack st).1 (unpack st).2
  = let r := time_step (cells layer) (emb_row table <$> col)
               ((λ l : Z, [l <? 0]) <$> step_len) st in
    Ok ((λ x, [a x]) <$> r.1, unpack r.2).
Proof.
  intros HB Hcol Hin Hlen Hmax Hwf.
  unfold RNNEncoder.forward_step.
  rewrite Embedding_call_ok.
  2:{ apply Forall_fmap. eapply Forall_impl; [exact Hin|].
      intros i Hi. simpl. by constructor. }
  simpl. rewrite (build_padding_rows step_len 1 Hmax) by lia.
  change (seqZ 0 1) with [0]. simpl.
  rewrite <- list_fmap_compose.
  change ((λ r : list Z, emb_row table <$> r) ∘ (λ i : Z, [i]))
    with ((λ x : list F, [x]) ∘ emb_row table).
  rewrite list_fmap_compose.
  rewrite transpose_singletons by (destruct col; [simpl in *; lia|done]).
  unfold StackedRNNLayer_call.
  destruct (unpack_shape _ _ _ Hwf) as [[Hm1 Hm2] [Hc1 Hc2]].
  fold (unpack st).
  assert (Hok : shapes_ok (length (cells layer)) [emb_row table <$> col]
                  [(λ l : Z, [l <? 0]) <$> step_len] (Some (unpack st))
                = true).
  { apply shapes_ok_spec. simpl. rewrite length_fmap, Hcol.
    split; [constructor; [by rewrite length_fmap|constructor]|].
    split; [split; [done|]; repeat constructor; by rewrite length_fmap|].
    split; [|exact (conj (conj Hm1 Hm2) (conj Hc1 Hc2))].
    repeat constructor. apply Forall_fmap, Forall_forall. by intros l _. }
  rewrite Hok. unfold initial_state. rewrite pack_unpack. simpl.
  rewrite transpose_single_row.
  unfold AdaptiveLogSoftmax_call. by rewrite <- list_fmap_compose.
Qed.

(** Threading [forward_step] over the columns of a batch is [run] under
    the mask whose row [t] is [length < 0] of the lengths of call [t]. *)
Lemma step_loop_ok (cols lens : list (list Z)) (B : nat)
    (st : list (list (row_state F))) :
  (0 < B)%nat →
  Forall2 (λ col len, (length col = B ∧ Forall (in_vocab table) col)
                      ∧ length len = B ∧ torch_max len = Ok 1) cols lens →
  wf_state (cells layer) B st →
  step_loop lsm enc
    (zip ((λ col : list Z, (λ i, [i]) <$> col) <$> cols) lens) (unpack st)
  = let r := run (cells layer) ((λ col : list Z, emb_row table <$> col) <$> cols)
               ((λ len : list Z, (λ l : Z, [l <? 0]) <$> len) <$> lens) st in
    Ok ((λ o1 : list (list F), (λ x, [a x]) <$> o1) <$> r.1, unpack r.2).
Proof.
  intros HB Hcalls. revert st.
  induction Hcalls as [|col len cols lens [[Hcol Hin] [Hlen Hmax]] Hcalls IH];
    intros st Hwf; [done|].
  rewrite !fmap_cons.
  change (step_loop lsm enc (zip (((λ i, [i]) <$> col) :: ?rest) (len :: lens))
            (unpack st))
    with (bind (RNNEncoder.forward_step lsm enc ((λ i, [i]) <$> col) len
                  (unpack st).1 (unpack st).2)
               (λ r, bind (step_loop lsm enc (zip rest lens) r.2)
                          (λ r', Ok (r.1 :: r'.1, r'.2)))).
  rewrite (forward_step_ok col len B st HB Hcol Hin Hlen Hmax Hwf).
  cbn [bind fst snd].
  rewrite IH.
  2:{ apply time_step_wf; [by rewrite length_fmap|by rewrite length_fmap|done]. }
  reflexivity.
Qed.

Lemma batch_of_rows {A} (B : nat) (x : list (list A)) :
  x ≠ [] → Forall (λ r, length r = B) x → batch_of x = B.
Proof. destruct x; [done|]. intros _ Hx. by apply Forall_cons in Hx as [? _]. Qed.

(** The full-sequence pass in adaptive mode. *)
Lemma forward_ok (input : list (list Z)) (seq_len : list Z) (B T : nat) :
  (0 < B)%nat → (0 < T)%nat →
  length input = B → Forall (λ r, length r = T) input →
  Forall (Forall (in_vocab table)) input →
  length seq_len = B → torch_max seq_len = Ok (Z.of_nat T) →
  RNNEncoder.forward lsm enc input seq_len
  = Ok ((λ m : list (list F), a <$> m) <$>
        transpose
          (run (cells layer)
             ((λ col : list Z, emb_row table <$> col) <$> transpose input)
             ((λ t : Z, (λ l : Z, [l <? t]) <$> seq_len) <$> seqZ 0 (Z.of_nat T))
             (zero_state zero (length (cells layer)) B (hidden_nodes layer))).1).
Proof.
  intros HB HT Hin_len Hrect Hin Hlen Hmax.
  assert (Hne : input ≠ []) by (destruct input; [simpl in *; lia|done]).
  destruct (transpose_shape T input Hne Hrect) as [HTl HTf].
  rewrite Hin_len in HTf.
  set (embT := (λ col : list Z, emb_row table <$> col) <$> transpose input).
  set (mask := (λ t : Z, (λ l : Z, [l <? t]) <$> seq_len) <$> seqZ 0 (Z.of_nat T)).
  assert (HembT : Forall (λ xs, length xs = B) embT).
  { unfold embT. apply Forall_fmap. eapply Forall_impl; [exact HTf|].
    intros c Hc. simpl. by rewrite length_fmap. }
  assert (Hbatch : batch_of embT = B).
  { apply batch_of_rows; [|done]. unfold embT.
    destruct (transpose input); [simpl in *; lia|done]. }
  assert (Hok : shapes_ok (length (cells layer)) embT mask None = true).
  { apply shapes_ok_spec. rewrite Hbatch. unfold mask, embT.
    split; [done|]. split; [split|split; [|done]].
    - rewrite !length_fmap, HTl, length_seqZ. lia.
    - apply Forall_fmap, Forall_forall. intros t _. simpl.
      by rewrite length_fmap.
    - apply Forall_fmap, Forall_forall. intros t _. simpl.
      apply Forall_fmap, Forall_forall. intros l _. done. }
  unfold RNNEncoder.forward, RNNEncoder.project.
  change (RNNEncoder.lookup_table enc) with table.
  change (RNNEncoder.stacked_rnn enc) with (StackedRNNLayer_call zero layer).
  change (RNNEncoder.adaptive_softmax enc) with true.
  change (RNNEncoder.log_softmax enc) with (Adaptive a).
  rewrite (Embedding_call_ok input Hin). cbn [bind].
  rewrite (build_padding_rows seq_len _ Hmax) by lia. cbn [bind].
  rewrite transpose_fmap. fold embT. fold mask.
  unfold StackedRNNLayer_call. rewrite Hok. cbn [bind fst snd negb].
  unfold initial_state. rewrite Hbatch. reflexivity.
Qed.

Lemma step_lengths_mask (seq_len : list Z) (t : Z) :
  (λ l : Z, [l <? 0]) <$> step_lengths seq_len t
  = (λ l : Z, [l <? t]) <$> seq_len.
Proof.
  unfold step_lengths. rewrite <- list_fmap_compose.
  apply list_fmap_ext. intros _ l _. simpl. by destruct (l <? t).
Qed.

Lemma torch_max_step_lengths (seq_len : list Z) (T t : Z) :
  torch_max seq_len = Ok T → t ≤ T → torch_max (step_lengths seq_len t) = Ok 1.
Proof.
  intros HT Ht. destruct seq_len as [|x v]; [done|]. injection HT as HT.
  unfold step_lengths.
  set (g := λ l : Z, if l <? t then -1 else 1).
  rewrite fmap_cons.
  change (torch_max (g x :: (g <$> v))) with (Ok (foldr Z.max (g x) (g <$> v))).
  f_equal.
  pose proof (foldr_max_in (g <$> v) (g x)) as Hin.
  rewrite <- fmap_cons in Hin.
  apply list_elem_of_fmap in Hin as (l & Hl & _).
  assert (Hle : foldr Z.max (g x) (g <$> v) ≤ 1).
  { rewrite Hl. unfold g. destruct (l <? t); lia. }
  assert (Hge : 1 ≤ foldr Z.max (g x) (g <$> v)).
  { apply foldr_max_ge. rewrite <- fmap_cons.
    apply list_elem_of_fmap. exists T. split.
    - unfold g. assert (E : (T <? t) = false) by lia. by rewrite E.
    - rewrite <- HT. apply foldr_max_in. }
  lia.
Qed.

(** Under the modelled layer and in adaptive-softmax mode the equivalence
    holds: when call [t] of the step path is given the lengths that make
    [forward_step] rebuild row [t] of [forward]'s mask, the two paths
    return the same scores at every position, and the state the steps
    end in is the state the layer returns inside [forward]. *)
Lemma steps_match_forward_same_mask (input : list (list Z))
    (seq_len : list Z) (B T : nat) :
  (0 < B)%nat → (0 < T)%nat →
  length input = B → Forall (λ r, length r = T) input →
  Forall (Forall (in_vocab table)) input →
  length seq_len = B → torch_max seq_len = Ok (Z.of_nat T) →
  ∃ o os s emb mask out,
    RNNEncoder.forward lsm enc input seq_len = Ok o
    ∧ step_loop lsm enc (step_calls input seq_len (Z.of_nat T))
        (unpack (zero_state zero (length (cells layer)) B (hidden_nodes layer)))
      = Ok (os, s)
    ∧ (∀ b t : nat, (b < B)%nat → (t < T)%nat → same_at o os b t)
    ∧ Embedding_call table input = Ok emb
    ∧ build_padding seq_len = Ok mask
    ∧ StackedRNNLayer_call zero layer (transpose emb) mask None = Ok (out, s).
Proof.
  intros HB HT Hin_len Hrect Hin Hlen Hmax.
  assert (Hne : input ≠ []) by (destruct input; [simpl in *; lia|done]).
  destruct (transpose_shape T input Hne Hrect) as [HTl HTf].
  rewrite Hin_len in HTf.
  pose proof (zero_state_wf zero (cells layer) B (hidden_nodes layer)) as Hwf.
  set (st0 := zero_state zero (length (cells layer)) B (hidden_nodes layer)) in *.
  set (embT := (λ col : list Z, emb_row table <$> col) <$> transpose input).
  set (mask := (λ t : Z, (λ l : Z, [l <? t]) <$> seq_len) <$> seqZ 0 (Z.of_nat T)).
  assert (Hmasks : (λ len : list Z, (λ l : Z, [l <? 0]) <$> len)
                     <$> (step_lengths seq_len <$> seqZ 0 (Z.of_nat T)) = mask).
  { unfold mask. rewrite <- list_fmap_compose. apply list_fmap_ext.
    intros _ t _. apply step_lengths_mask. }
  assert (HembT : Forall (λ xs, length xs = B) embT).
  { unfold embT. apply Forall_fmap. eapply Forall_impl; [exact HTf|].
    intros c Hc. simpl. by rewrite length_fmap. }
  assert (HlembT : length embT = T) by (unfold embT; by rewrite length_fmap).
  assert (Hlmask : length mask = T).
  { unfold mask. rewrite length_fmap, length_seqZ. lia. }
  assert (Hmask : Forall (λ ms, length ms = B) mask).
  { unfold mask. apply Forall_fmap, Forall_forall. intros t' _. simpl.
    by rewrite length_fmap. }
  assert (Hbatch : batch_of embT = B).
  { apply batch_of_rows; [|done]. destruct embT; [simpl in *; lia|done]. }
  assert (Hok : shapes_ok (length (cells layer)) embT mask None = true).
  { apply shapes_ok_spec. rewrite Hbatch.
    split; [done|]. split; [split; [lia|done]|split; [|done]].
    unfold mask. apply Forall_fmap, Forall_forall. intros t _. simpl.
    apply Forall_fmap, Forall_forall. by intros l _. }
  exists ((λ m : list (list F), a <$> m) <$> transpose (run (cells layer) embT mask st0).1),
    ((λ o1 : list (list F), (λ x, [a x]) <$> o1) <$> (run (cells layer) embT mask st0).1),
    (unpack (run (cells layer) embT mask st0).2),
    ((λ r : list Z, emb_row table <$> r) <$> input), mask,
    (run (cells layer) embT mask st0).1.
  split; [by apply forward_ok|]. split.
  { unfold step_calls, time_slices.
    rewrite (step_loop_ok _ _ B st0); [by rewrite Hmasks|done| |done].
    apply Forall2_same_length_lookup_2.
    { rewrite length_fmap, length_seqZ. lia. }
    intros j col len Hj Hlenj.
    rewrite list_lookup_fmap in Hlenj.
    destruct (seqZ 0 (Z.of_nat T) !! j) as [t|] eqn:Ht; [|done].
    apply lookup_seqZ in Ht as [-> Ht]. injection Hlenj as <-.
    split; [split|split].
    - exact (Forall_lookup_1 _ _ _ _ HTf Hj).
    - exact (Forall_lookup_1 _ _ _ _ (transpose_Forall _ _ Hin) Hj).
    - unfold step_lengths. by rewrite length_fmap.
    - apply (torch_max_step_lengths seq_len (Z.of_nat T)); [done|lia]. }
  split.
  { intros b t HbB Ht.
    pose proof (run_output_shape (cells layer) embT mask st0 B
                  ltac:(lia) HembT Hmask Hwf) as Hshape.
    destruct (lookup_lt_is_Some_2 (run (cells layer) embT mask st0).1 t)
      as [o1 Ho1].
    { rewrite run_output_length; lia. }
    destruct (lookup_lt_is_Some_2 o1 b) as [v Hv].
    { by rewrite (Forall_lookup_1 _ _ _ _ Hshape Ho1). }
    exists (a v). split.
    - rewrite at2_fmap, (at2_transpose B t b _ Hshape HbB).
      unfold at2. rewrite Ho1. simpl. by rewrite Hv.
    - rewrite list_lookup_fmap, Ho1. simpl. unfold at2.
      by rewrite list_lookup_fmap, Hv. }
  split; [by apply Embedding_call_ok|].
  split; [apply build_padding_rows; [done|lia]|].
  rewrite transpose_fmap. fold embT.
  unfold StackedRNNLayer_call. rewrite Hok.
  unfold initial_state. by rewrite Hbatch.
Qed.
End StepsAgainstForward.

(** C1: in plain-projection mode there is no full-sequence output for the
    steps to equal.  [forward] never returns, whatever the batch, because
    of the keyword of line 70; on the one sequence [[0, 1]] over a
    vocabulary of two it raises [TypeError], while the two single steps,
    which call the same module without the keyword (line 94), return
    scores and a final state. *)
Theorem steps_return_where_forward_raises :
  (∀ (F : Type) (lsm : list F → list F) (vocab_size : Z)
     (table : Embedding F) (rnn : StackedRNN F) (a : AdaptiveLogSoftmax F)
     (lin : Linear F) (input : list (list Z)) (seq_len : list Z),
      is_ok (RNNEncoder.forward lsm
               (RNNEncoder.init vocab_size table rnn false a lin)
               input seq_len) = false)
  ∧ (∀ lsm : list Z → list Z,
      RNNEncoder.forward lsm plain_encoder [[0; 1]] [2] = Raise TypeError
      ∧ step_loop lsm plain_encoder (step_calls [[0; 1]] [2] 2)
          (unpack (zero_state 0 1 1 1))
        = Ok ([[[lsm [1; 1]]]; [[lsm [3; 3]]]], ([[[3]]], [[[0]]]))).
Proof.
  split; [|intros lsm; split; reflexivity].
  intros. unfold RNNEncoder.forward. simpl.
  destruct (Embedding_call table input); [|done]. simpl.
  destruct (build_padding seq_len); [|done]. simpl.
  destruct (rnn _ _ _); [|done]. reflexivity.
Qed.

(** * Further properties of the code *)

(** ** The padding mask, as lines 56-60 build it *)

Lemma build_padding_inv (seq_len : list Z) (mask : list (list (list bool))) :
  build_padding seq_len = Ok mask →
  ∃ T, torch_max seq_len = Ok T ∧ 0 ≤ T
       ∧ mask = (λ t : Z, (λ l : Z, [l <? t]) <$> seq_len) <$> seqZ 0 T.
Proof.
  intros Hm. unfold build_padding in Hm.
  apply bind_ok_inv in Hm as (T & HT & Hm).
  assert (H0 : 0 ≤ T).
  { unfold arange in Hm. destruct (T <? 0) eqn:E; [done|lia]. }
  exists T. split; [done|]. split; [done|].
  pose proof (build_padding_rows seq_len T HT H0) as Hr.
  unfold build_padding in Hr. rewrite HT in Hr. simpl in Hr.
  rewrite Hr in Hm. by injection Hm as <-.
Qed.

Lemma mask_rows_entry (seq_len : list Z) (T l : Z) (t b : nat) :
  Z.of_nat t < T → seq_len !! b = Some l →
  at2 ((λ t : Z, (λ l : Z, [l <? t]) <$> seq_len) <$> seqZ 0 T) t b
  = Some [l <? Z.of_nat t].
Proof.
  intros Ht Hb. unfold at2. rewrite list_lookup_fmap.
  assert (Hs : seqZ 0 T !! t = Some (Z.of_nat t)) by (apply lookup_seqZ; lia).
  rewrite Hs. simpl. by rewrite list_lookup_fmap, Hb.
Qed.

(** The mask has [max(seq_len)] rows of one entry per sequence, and the
    entry of sequence [b] at position [t] is [seq_len[b] < t]. *)
Theorem build_padding_shape_entries (seq_len : list Z) (T : Z) :
  torch_max seq_len = Ok T → 0 ≤ T →
  ∃ mask, build_padding seq_len = Ok mask
    ∧ length mask = Z.to_nat T
    ∧ Forall (λ row, length row = length seq_len) mask
    ∧ ∀ (t b : nat) (l : Z),
        Z.of_nat t < T → seq_len !! b = Some l →
        at2 mask t b = Some [l <? Z.of_nat t].
Proof.
  intros HT H0. eexists. split; [by apply build_padding_rows|].
  split; [by rewrite length_fmap, length_seqZ|]. split.
  - apply Forall_fmap, Forall_forall. intros t _. simpl.
    by rewrite length_fmap.
  - intros t b l Ht Hb. by apply mask_rows_entry.
Qed.

Lemma build_padding_shape_entries_witness :
  ∃ mask, build_padding [1; 3] = Ok mask
    ∧ length mask = Z.to_nat 3
    ∧ Forall (λ row, length row = length [1; 3]) mask
    ∧ ∀ (t b : nat) (l : Z),
        Z.of_nat t < 3 → [1; 3] !! b = Some l →
        at2 mask t b = Some [l <? Z.of_nat t].
Proof.
  apply (build_padding_shape_entries [1; 3] 3); [reflexivity|lia].
Defined.

(** Once a sequence is masked it stays masked at every later position of
    the mask. *)
Theorem padding_mask_monotone (seq_len : list Z)
    (mask : list (list (list bool))) (t t' b : nat) :
  build_padding seq_len = Ok mask →
  (t ≤ t')%nat → (t' < length mask)%nat →
  at2 mask t b = Some [true] → at2 mask t' b = Some [true].
Proof.
  intros Hm Hle Hlt Ht.
  apply build_padding_inv in Hm as (T & HT & H0 & ->).
  rewrite length_fmap, length_seqZ in Hlt.
  destruct (seq_len !! b) as [l|] eqn:Hb.
  - rewrite (mask_rows_entry seq_len T l t b) in Ht by (done || lia).
    rewrite (mask_rows_entry seq_len T l t' b) by (done || lia).
    injection Ht as Ht. do 2 f_equal. lia.
  - unfold at2 in Ht. rewrite list_lookup_fmap in Ht.
    destruct (seqZ 0 T !! t); simpl in Ht; [|done].
    by rewrite list_lookup_fmap, Hb in Ht.
Qed.

Lemma padding_mask_monotone_witness :
  at2 [[[false]; [false]]; [[false]; [false]]; [[true]; [false]]; [[true]; [false]]]
      3 0 = Some [true].
Proof.
  apply (padding_mask_monotone [1; 4] _ 2 3 0); [reflexivity|lia|simpl; lia|reflexivity].
Defined.

(** The mask is built exactly when some length is non-negative; an empty
    batch of lengths, or lengths that are all negative, raise
    [RuntimeError] ([torch.max] of nothing, [torch.arange] to a negative
    bound). *)
Theorem build_padding_ok_iff (seq_len : list Z) :
  (is_ok (build_padding seq_len) = true ↔ ∃ l, l ∈ seq_len ∧ 0 ≤ l)
  ∧ (is_ok (build_padding seq_len) = false →
     build_padding seq_len = Raise RuntimeError).
Proof.
  split.
  - split.
    + destruct (build_padding seq_len) as [mask|] eqn:Hm; [|done]. intros _.
      apply build_padding_inv in Hm as (T & HT & H0 & _).
      destruct seq_len as [|a v]; [done|]. injection HT as <-.
      exists (foldr Z.max a v). split; [apply foldr_max_in|done].
    + intros (l & Hin & Hl). destruct seq_len as [|a v].
      { by apply elem_of_nil in Hin. }
      pose proof (foldr_max_ge v a l Hin) as Hge.
      rewrite (build_padding_rows (a :: v) (foldr Z.max a v)); [done|done|lia].
  - unfold build_padding, arange. destruct (torch_max seq_len) as [T|e] eqn:HT.
    + simpl. by destruct (T <? 0).
    + destruct seq_len; [|done]. by injection HT as <-.
Qed.

(** With at least one position, a sequence is masked somewhere exactly
    when it is at least two tokens shorter than the longest one: the
    comparison is [seq_len < t] and [t] stops at [max(seq_len) - 1]. *)
Theorem masked_somewhere_iff (seq_len : list Z)
    (mask : list (list (list bool))) (T l : Z) (b : nat) :
  build_padding seq_len = Ok mask → torch_max seq_len = Ok T → 1 ≤ T →
  seq_len !! b = Some l →
  (∃ t : nat, at2 mask t b = Some [true]) ↔ l < T - 1.
Proof.
  intros Hm HT H1 Hb.
  apply build_padding_inv in Hm as (T' & HT' & _ & ->).
  assert (T' = T) as -> by congruence.
  split.
  - intros [t Ht].
    assert (Hlt : Z.of_nat t < T).
    { unfold at2 in Ht. destruct (_ !! t) eqn:E; [|done].
      apply lookup_lt_Some in E.
      rewrite length_fmap, length_seqZ in E. lia. }
    rewrite (mask_rows_entry seq_len T l t b Hlt Hb) in Ht.
    injection Ht as Ht. lia.
  - intros Hl. exists (Z.to_nat (T - 1)).
    rewrite (mask_rows_entry seq_len T l _ b) by (done || lia).
    rewrite Z2Nat.id by lia.
    assert (E : (l <? T - 1) = true) by (apply Z.ltb_lt; lia).
    by rewrite E.
Qed.

Lemma masked_somewhere_iff_witness :
  (∃ t : nat,
     at2 [[[false]; [false]]; [[false]; [false]]; [[true]; [false]]] t 0
     = Some [true])
  ↔ 1 < 3 - 1.
Proof.
  apply (masked_somewhere_iff [1; 3] _ 3 1 0); [reflexivity|reflexivity|lia|reflexivity].
Defined.

(** The first position is never masked when no length is negative; a call
    on one-token sequences therefore gets a mask that is false
    throughout. *)
Theorem first_position_unmasked (seq_len : list Z)
    (mask : list (list (list bool))) (row : list (list bool)) :
  build_padding seq_len = Ok mask → Forall (λ l, 0 ≤ l) seq_len →
  mask !! 0%nat = Some row → row = replicate (length seq_len) [false].
Proof.
  intros Hm Hpos Hrow.
  apply build_padding_inv in Hm as (T & HT & H0 & ->).
  rewrite list_lookup_fmap in Hrow.
  destruct (seqZ 0 T !! 0%nat) as [z|] eqn:Hz; [|done].
  apply lookup_seqZ in Hz as [-> _].
  change (0 + Z.of_nat 0) with 0 in Hrow. simpl in Hrow. injection Hrow as <-.
  clear HT. induction Hpos as [|l v Hl Hv IH]; [done|].
  assert (E : (l <? 0) = false) by (apply Z.ltb_ge; lia).
  by rewrite fmap_cons, IH, E.
Qed.

Lemma first_position_unmasked_witness :
  [[false]; [false]] = replicate (length [1; 1]) [false].
Proof.
  apply (first_position_unmasked [1; 1] [[[false]; [false]]] [[false]; [false]]);
    [reflexivity|repeat constructor; lia|reflexivity].
Defined.

(** ** Exceptions of [RNNEncoder.forward] and [forward_step] *)

Lemma for_each_raise {A B} (f : A → result B) (l : list A) (e : PyError) :
  (∀ x e', f x = Raise e' → e' = e) →
  (∃ x, x ∈ l ∧ f x = Raise e) →
  for_each f l = Raise e.
Proof.
  intros Honly (x & Hin & Hx). induction l as [|a l IH].
  { by apply elem_of_nil in Hin. }
  simpl. destruct (f a) as [b|e'] eqn:Ea.
  - apply elem_of_cons in Hin as [->|Hin]; [congruence|].
    simpl. by rewrite (IH Hin).
  - simpl. f_equal. by eapply Honly.
Qed.

Lemma for_each_raise_inv {A B} (f : A → result B) (l : list A) (e : PyError) :
  for_each f l = Raise e → ∃ x, x ∈ l ∧ f x = Raise e.
Proof.
  induction l as [|a l IH]; [done|]. simpl.
  destruct (f a) as [b|e'] eqn:Ea; simpl.
  - destruct (for_each f l) as [bs|e''] eqn:El; simpl; [done|].
    intros [= ->]. destruct (IH eq_refl) as (x & Hin & Hx).
    exists x. split; [by right|done].
  - intros [= ->]. exists a. split; [by left|done].
Qed.

Lemma embed_raise_inv {F} (table : Embedding F) (i : Z) (e : PyError) :
  embed table i = Raise e → e = IndexError.
Proof.
  unfold embed. destruct ((0 <=? i) && (i <? Z.of_nat (length table)));
    [destruct (table !! Z.to_nat i)|]; congruence.
Qed.

Lemma embed_out_of_range {F} (table : Embedding F) (i : Z) :
  ¬ in_vocab table i → embed table i = Raise IndexError.
Proof.
  unfold in_vocab, embed. intros Hn.
  destruct ((0 <=? i) && (i <? Z.of_nat (length table))) eqn:E; [|done].
  apply andb_true_iff in E as [E0 E1]. lia.
Qed.

Lemma Embedding_call_raise_inv {F} (table : Embedding F)
    (input : list (list Z)) (e : PyError) :
  Embedding_call table input = Raise e → e = IndexError.
Proof.
  intros He. apply for_each_raise_inv in He as (row & _ & He).
  apply for_each_raise_inv in He as (i & _ & He).
  by eapply embed_raise_inv.
Qed.

Lemma Embedding_call_out_of_range {F} (table : Embedding F)
    (input : list (list Z)) (row : list Z) (i : Z) :
  row ∈ input → i ∈ row → ¬ in_vocab table i →
  Embedding_call table input = Raise IndexError.
Proof.
  intros Hrow Hi Hn. unfold Embedding_call. apply for_each_raise.
  - intros r e' Hr. apply for_each_raise_inv in Hr as (j & _ & Hj).
    by eapply embed_raise_inv.
  - exists row. split; [done|]. apply for_each_raise.
    + intros j e'. apply embed_raise_inv.
    + exists i. split; [done|]. by apply embed_out_of_range.
Qed.

(** A token id outside the embedding table makes both [forward] and
    [forward_step] raise [IndexError], in either projection mode and
    before the lengths or the recurrent layer are looked at. *)
Theorem out_of_vocabulary_raises {F} (lsm : list F → list F)
    (self : RNNEncoder.t F) (input : list (list Z)) (seq_len : list Z)
    (state_m state_c : list (list (list F))) (row : list Z) (i : Z) :
  row ∈ input → i ∈ row → ¬ in_vocab (RNNEncoder.lookup_table self) i →
  RNNEncoder.forward lsm self input seq_len = Raise IndexError
  ∧ RNNEncoder.forward_step lsm self input seq_len state_m state_c
    = Raise IndexError.
Proof.
  intros Hrow Hi Hn.
  unfold RNNEncoder.forward, RNNEncoder.forward_step.
  by rewrite (Embedding_call_out_of_range _ input row i Hrow Hi Hn).
Qed.

Lemma out_of_vocabulary_raises_witness :
  RNNEncoder.forward (λ v, v) (toy_encoder true) [[0; 5]] [2] = Raise IndexError
  ∧ RNNEncoder.forward_step (λ v, v) (toy_encoder true) [[0; 5]] [2]
      [[[0]]] [[[0]]] = Raise IndexError.
Proof.
  apply (out_of_vocabulary_raises (λ v, v) (toy_encoder true) [[0; 5]] [2]
           [[[0]]] [[[0]]] [0; 5] 5).
  - by left.
  - right; by left.
  - unfold in_vocab. simpl. lia.
Defined.

Lemma build_padding_negative (seq_len : list Z) :
  Forall (λ l, l < 0) seq_len → build_padding seq_len = Raise RuntimeError.
Proof.
  intros Hneg. destruct seq_len as [|a v]; [done|].
  unfold build_padding, arange. simpl.
  pose proof (foldr_max_in v a) as Hin.
  rewrite Forall_forall in Hneg. specialize (Hneg _ Hin). simpl in Hneg.
  assert (E : (foldr Z.max a v <? 0) = true) by (apply Z.ltb_lt; lia).
  by rewrite E.
Qed.

(** With every id in the table but no non-negative length (an empty
    batch included), both paths raise [RuntimeError] from building the
    mask; the recurrent layer is not reached. *)
Theorem no_valid_length_raises {F} (lsm : list F → list F)
    (self : RNNEncoder.t F) (input : list (list Z)) (seq_len : list Z)
    (state_m state_c : list (list (list F))) :
  Forall (Forall (in_vocab (RNNEncoder.lookup_table self))) input →
  Forall (λ l, l < 0) seq_len →
  RNNEncoder.forward lsm self input seq_len = Raise RuntimeError
  ∧ RNNEncoder.forward_step lsm self input seq_len state_m state_c
    = Raise RuntimeError.
Proof.
  intros Hin Hneg.
  unfold RNNEncoder.forward, RNNEncoder.forward_step.
  rewrite (Embedding_call_ok _ input Hin). simpl.
  by rewrite (build_padding_negative seq_len Hneg).
Qed.

Lemma no_valid_length_raises_witness :
  RNNEncoder.forward (λ v, v) (toy_encoder false) [] [] = Raise RuntimeError
  ∧ RNNEncoder.forward_step (λ v, v) (toy_encoder false) [] [] [] []
    = Raise RuntimeError.
Proof.
  apply (no_valid_length_raises (λ v, v) (toy_encoder false) [] [] [] []);
    constructor.
Defined.

(** In plain-projection mode [forward_step] applies the
    [nn.LogSoftmax(dim=vocab_size)] of line 44 to a 3-d tensor: with more
    than two words in the vocabulary that dimension does not exist, and
    the step never returns. *)
Theorem forward_step_plain_mode_raises {F} (lsm : list F → list F)
    (vocab_size : Z) (table : Embedding F) (rnn : StackedRNN F)
    (a : AdaptiveLogSoftmax F) (lin : Linear F) (input : list (list Z))
    (seq_len : list Z) (state_m state_c : list (list (list F))) :
  2 < vocab_size →
  is_ok (RNNEncoder.forward_step lsm
           (RNNEncoder.init vocab_size table rnn false a lin)
           input seq_len state_m state_c) = false.
Proof.
  intros HV. unfold RNNEncoder.forward_step. simpl.
  destruct (Embedding_call table input); [|done]. simpl.
  destruct (build_padding seq_len); [|done]. simpl.
  destruct (rnn _ _ _) as [[o s]|]; [|done]. simpl.
  unfold F_log_softmax.
  assert (E2 : (vocab_size =? 2) = false) by lia.
  assert (E1 : (vocab_size =? 1) = false) by lia.
  assert (E0 : (vocab_size =? 0) = false) by lia.
  assert (N1 : (vocab_size =? -1) = false) by lia.
  assert (N2 : (vocab_size =? -2) = false) by lia.
  assert (N3 : (vocab_size =? -3) = false) by lia.
  by rewrite E2, E1, E0, N1, N2, N3.
Qed.

Lemma forward_step_plain_mode_raises_witness :
  is_ok (RNNEncoder.forward_step (λ v, v)
           (RNNEncoder.init 3 toy_table (StackedRNNLayer_call 0 toy_layer)
              false toy_scores toy_linear)
           [[0]; [1]] [1; 1] [[[0]; [0]]] [[[0]; [0]]]) = false.
Proof.
  apply (forward_step_plain_mode_raises (λ v, v) 3 toy_table
           (StackedRNNLayer_call 0 toy_layer) toy_scores toy_linear).
  lia.
Defined.

Lemma build_padding_raise_inv (seq_len : list Z) (e : PyError) :
  build_padding seq_len = Raise e → e = RuntimeError.
Proof.
  unfold build_padding, arange.
  destruct seq_len as [|x v]; simpl; [congruence|].
  destruct (foldr Z.max x v <? 0); simpl; congruence.
Qed.

Lemma log_softmax_call_raise_inv {F} (lsm : list F → list F)
    (m : LogSoftmaxModule F) (o : list (list (list F))) (kw : option Z)
    (e : PyError) :
  log_softmax_call lsm m o kw = Raise e → e = TypeError ∨ e = IndexError.
Proof.
  destruct m as [a|dim]; simpl; [done|].
  destruct kw; [intros [= <-]; by left|].
  unfold F_log_softmax.
  repeat match goal with |- context [if ?c then _ else _] => destruct c end;
    try done.
  intros [= <-]. by right.
Qed.

(** An encoder built by [__init__] never trips over the missing
    [self.out]: unless the recurrent layer itself raises it, neither path
    raises [AttributeError], because [out] is read only in the mode in
    which [__init__] sets it. *)
Theorem init_never_misses_out {F} (lsm : list F → list F)
    (vocab_size : Z) (table : Embedding F) (rnn : StackedRNN F)
    (adaptive_softmax : bool) (a : AdaptiveLogSoftmax F) (lin : Linear F)
    (input : list (list Z)) (seq_len : list Z)
    (state_m state_c : list (list (list F))) :
  (∀ x p s, rnn x p s ≠ Raise AttributeError) →
  RNNEncoder.forward lsm
    (RNNEncoder.init vocab_size table rnn adaptive_softmax a lin)
    input seq_len ≠ Raise AttributeError
  ∧ RNNEncoder.forward_step lsm
      (RNNEncoder.init vocab_size table rnn adaptive_softmax a lin)
      input seq_len state_m state_c ≠ Raise AttributeError.
Proof.
  intros Hrnn.
  unfold RNNEncoder.forward, RNNEncoder.forward_step, RNNEncoder.project.
  cbn [RNNEncoder.lookup_table RNNEncoder.stacked_rnn RNNEncoder.init
       RNNEncoder.adaptive_softmax RNNEncoder.out RNNEncoder.log_softmax].
  destruct (Embedding_call table input) as [emb|e] eqn:He; cbn [bind].
  2:{ apply Embedding_call_raise_inv in He as ->. by split. }
  destruct (build_padding seq_len) as [mask|e] eqn:Hm; cbn [bind].
  2:{ apply build_padding_raise_inv in Hm as ->. by split. }
  split.
  - destruct (rnn (transpose emb) mask None) as [[o s]|e] eqn:Hr; cbn [bind].
    2:{ intros [= ->]. by eapply Hrnn. }
    destruct adaptive_softmax; cbn [negb bind fst]; intros Hl;
      apply log_softmax_call_raise_inv in Hl as [?|?]; done.
  - destruct (rnn (transpose emb) mask (Some (state_m, state_c)))
      as [[o s]|e] eqn:Hr; cbn [bind].
    2:{ intros [= ->]. by eapply Hrnn. }
    destruct adaptive_softmax; cbn [negb bind fst snd];
      match goal with
      | |- context [log_softmax_call ?l ?m ?x ?k] =>
          destruct (log_softmax_call l m x k) as [o'|e] eqn:Hl
      end; cbn [bind]; try done;
      apply log_softmax_call_raise_inv in Hl as [-> | ->]; done.
Qed.

Lemma init_never_misses_out_witness :
  RNNEncoder.forward (λ v, v) (toy_encoder false) [[0; 1]] [2]
  ≠ Raise AttributeError
  ∧ RNNEncoder.forward_step (λ v, v) (toy_encoder false) [[0; 1]] [2]
      [[[0]]] [[[0]]] ≠ Raise AttributeError.
Proof.
  apply (init_never_misses_out (λ v, v) 3 toy_table
           (StackedRNNLayer_call 0 toy_layer) false toy_scores toy_linear).
  intros x p s. unfold StackedRNNLayer_call.
  destruct (shapes_ok _ x p s); discriminate.
Defined.

(** ** Layout: batch major outside, time major inside *)

Lemma for_each_ok_lookup {A B} (f : A → result B) (l : list A) (l' : list B) :
  for_each f l = Ok l' →
  length l' = length l
  ∧ ∀ (i : nat) (x : A), l !! i = Some x → ∃ y, l' !! i = Some y ∧ f x = Ok y.
Proof.
  revert l'. induction l as [|a l IH]; intros l' Hl; simpl in Hl.
  { injection Hl as <-. split; [done|]. intros i x Hx. done. }
  apply bind_ok_inv in Hl as (y & Hy & Hl).
  apply bind_ok_inv in Hl as (ys & Hys & Hl). injection Hl as <-.
  destruct (IH ys Hys) as [Hlen Hlook]. split; [simpl; by rewrite Hlen|].
  intros [|i] x Hx; simpl in *.
  - injection Hx as <-. by exists y.
  - by apply Hlook.
Qed.

Lemma embed_ok_inv {F} (table : Embedding F) (i : Z) (row : list F) :
  embed table i = Ok row → in_vocab table i ∧ table !! Z.to_nat i = Some row.
Proof.
  unfold embed, in_vocab.
  destruct ((0 <=? i) && (i <? Z.of_nat (length table))) eqn:E; [|done].
  apply andb_true_iff in E as [E0 E1].
  destruct (table !! Z.to_nat i) as [r|]; [|done]. intros [= ->].
  split; [lia|done].
Qed.

(** What the recurrent layer receives at timestep [t] for sequence [b] is
    the table row of the token [input[b][t]]: line 61 turns the looked-up
    [[batch, time, dim]] tensor time major. *)
Theorem embedding_time_major {F} (table : Embedding F)
    (input : list (list Z)) (emb : list (list (list F))) (T t b : nat)
    (i : Z) :
  Embedding_call table input = Ok emb →
  Forall (λ r, length r = T) input →
  at2 input b t = Some i →
  in_vocab table i ∧ at2 (transpose emb) t b = table !! Z.to_nat i.
Proof.
  intros He Hrect Hi. unfold Embedding_call in He.
  destruct (for_each_ok_lookup _ _ _ He) as [Hlen Hlook].
  unfold at2 in Hi. destruct (input !! b) as [r|] eqn:Hr; [|done].
  simpl in Hi.
  destruct (Hlook b r Hr) as (er & Her & Hfr).
  destruct (for_each_ok_lookup _ _ _ Hfr) as [Hlen' Hlook'].
  destruct (Hlook' t i Hi) as (row & Hrow & Hemb).
  apply embed_ok_inv in Hemb as [Hin Htab]. split; [done|].
  assert (HT : (t < T)%nat).
  { rewrite <- (Forall_lookup_1 _ _ _ _ Hrect Hr). by eapply lookup_lt_Some. }
  assert (Hrect' : Forall (λ r, length r = T) emb).
  { apply Forall_lookup. intros j ej Hj.
    destruct (lookup_lt_is_Some_2 input j) as [rj Hrj].
    { rewrite <- Hlen. by eapply lookup_lt_Some. }
    destruct (Hlook j rj Hrj) as (ej' & Hej' & Hfj).
    assert (ej' = ej) as -> by congruence.
    destruct (for_each_ok_lookup _ _ _ Hfj) as [-> _].
    exact (Forall_lookup_1 _ _ _ _ Hrect Hrj). }
  rewrite (at2_transpose T b t emb Hrect' HT).
  unfold at2. rewrite Her. simpl. by rewrite Hrow, Htab.
Qed.

Lemma embedding_time_major_witness :
  in_vocab toy_table 2
  ∧ at2 (transpose [[[1]; [1]]; [[2]; [3]]]) 1 1 = toy_table !! Z.to_nat 2.
Proof.
  apply (embedding_time_major toy_table [[0; 0]; [1; 2]] _ 2 1 1 2);
    [reflexivity|repeat constructor|reflexivity].
Defined.

(** In adaptive-softmax mode the scores [forward] returns for sequence
    [b] at position [t] are the adaptive module applied to the recurrent
    layer's output at timestep [t] for sequence [b]: line 69 turns the
    time-major output batch major, and nothing else touches it. *)
Theorem forward_batch_major {F} (lsm : list F → list F) (vocab_size : Z)
    (table : Embedding F) (rnn : StackedRNN F) (a : AdaptiveLogSoftmax F)
    (lin : Linear F) (input : list (list Z)) (seq_len : list Z)
    (emb : list (list (list F))) (mask : list (list (list bool)))
    (out : list (list (list F))) (s : rnn_state F) (B : nat) :
  Embedding_call table input = Ok emb →
  build_padding seq_len = Ok mask →
  rnn (transpose emb) mask None = Ok (out, s) →
  Forall (λ r, length r = B) out →
  ∃ o, RNNEncoder.forward lsm
         (RNNEncoder.init vocab_size table rnn true a lin) input seq_len
       = Ok o
       ∧ ∀ b t : nat, (b < B)%nat → at2 o b t = a <$> at2 out t b.
Proof.
  intros He Hm Hr Hout. eexists. split.
  - unfold RNNEncoder.forward. simpl. rewrite He. simpl. rewrite Hm. simpl.
    rewrite Hr. reflexivity.
  - intros b t Hb. simpl. unfold AdaptiveLogSoftmax_call.
    by rewrite at2_fmap, (at2_transpose B t b out Hout Hb).
Qed.

Lemma forward_batch_major_witness :
  ∃ o, RNNEncoder.forward (λ v, v) (toy_encoder true)
         [[0; 0; 0]; [1; 2; 0]] [1; 3] = Ok o
       ∧ ∀ b t : nat, (b < 2)%nat →
           at2 o b t
           = toy_scores <$> at2 [[[1]; [2]]; [[2]; [5]]; [[2]; [6]]] t b.
Proof.
  eapply (forward_batch_major (λ v, v) 3 toy_table
            (StackedRNNLayer_call 0 toy_layer) toy_scores toy_linear
            [[0; 0; 0]; [1; 2; 0]] [1; 3]).
  - reflexivity.
  - reflexivity.
  - reflexivity.
  - repeat constructor.
Defined.

(** ** [RNNLM.forward]: what reaches the caller *)

Lemma forward_plain_not_ok {F} (lsm : list F → list F) (vocab_size : Z)
    (table : Embedding F) (rnn : StackedRNN F) (a : AdaptiveLogSoftmax F)
    (lin : Linear F) (input : list (list Z)) (seq_len : list Z) :
  is_ok (RNNEncoder.forward lsm
           (RNNEncoder.init vocab_size table rnn false a lin) input seq_len)
  = false.
Proof.
  unfold RNNEncoder.forward. simpl.
  destruct (Embedding_call table input); [|done]. simpl.
  destruct (build_padding seq_len); [|done]. simpl.
  destruct (rnn _ _ _); [|done]. reflexivity.
Qed.

Section LMFurther.
Context {F : Type} `{FloatOps F}.
Variable criterion_call :
  LabelSmoothingLoss F → list (list (list F)) → list (list Z) →
  result (F * list F).

(** Training through an encoder built without adaptive softmax (the
    default of [RNNEncoder]) never yields a loss: the call raises, at the
    batch-size check or inside the encoder, before the criterion is
    reached. *)
Theorem training_plain_encoder_never_returns (lsm : list F → list F)
    (vocab_size enc_vocab_size : Z) (table : Embedding F) (rnn : StackedRNN F)
    (a : AdaptiveLogSoftmax F) (lin : Linear F) (lsm_weight : F) (norm : bool)
    (input : list (list Z)) (input_length : list Z)
    (labels : list (list Z)) (labels_length : list Z) :
  is_ok (RNNLM.forward criterion_call
           (RNNLM.init vocab_size
              (encoder_module lsm
                 (RNNEncoder.init enc_vocab_size table rnn false a lin))
              lsm_weight norm)
           input input_length labels labels_length) = false.
Proof.
  unfold RNNLM.forward, RNNLM.check_batch.
  destruct (RNNLM.batch_sizes_match _ _ _ _); [|done]. cbn [bind].
  unfold RNNLM.forward_body. simpl.
  pose proof (forward_plain_not_ok lsm enc_vocab_size table rnn a lin
                input input_length) as Hn.
  destruct (RNNEncoder.forward _ _ _ _); [done|reflexivity].
Qed.

(** Whenever [forward] returns, the four batch sizes were equal, the
    scalar loss is the criterion's own, untouched, and there is one
    perplexity per per-sequence loss, in the same order. *)
Theorem forward_returns_inv (self : RNNLM.t F)
    (input : list (list Z)) (input_length : list Z)
    (labels : list (list Z)) (labels_length : list Z)
    (loss total_ppl : F) (ppl : list F) :
  RNNLM.forward criterion_call self input input_length labels labels_length
  = Ok (loss, ppl, total_ppl) →
  (length input = length input_length
   ∧ length input_length = length labels
   ∧ length labels = length labels_length)
  ∧ ∃ logit each,
      enc_forward (RNNLM.model self) input input_length = Ok logit
      ∧ criterion_call (RNNLM.criterion self) logit labels = Ok (loss, each)
      ∧ length ppl = length each
      ∧ ∀ (b : nat) (x : F), each !! b = Some x → ppl !! b = Some (fexp x).
Proof.
  unfold RNNLM.forward, RNNLM.check_batch. intros Hf.
  destruct (RNNLM.batch_sizes_match input input_length labels labels_length)
    eqn:Hb; [|done].
  apply batch_sizes_match_spec in Hb. split; [done|].
  cbn [bind] in Hf. unfold RNNLM.forward_body in Hf.
  apply bind_ok_inv in Hf as (logit & Hl & Hf).
  apply bind_ok_inv in Hf as ([loss' each] & Hc & Hf).
  injection Hf as -> <- _.
  exists logit, each. repeat split; try done.
  - by rewrite length_fmap.
  - intros b x Hx. by rewrite list_lookup_fmap, Hx.
Qed.

(** [labels_length] matters only through its size and, without length
    normalisation, its sum: two calls that differ in [labels_length]
    alone agree if the sizes are equal and either the loss is length
    normalised or the sums are equal. *)
Theorem labels_length_only_sum (self : RNNLM.t F)
    (input : list (list Z)) (input_length : list Z)
    (labels : list (list Z)) (labels_length labels_length' : list Z) :
  length labels_length = length labels_length' →
  RNNLM.length_normalized_loss self = true
  ∨ RNNLM.tensor_sum labels_length = RNNLM.tensor_sum labels_length' →
  RNNLM.forward criterion_call self input input_length labels labels_length
  = RNNLM.forward criterion_call self input input_length labels labels_length'.
Proof.
  intros Hlen Hor.
  unfold RNNLM.forward, RNNLM.check_batch, RNNLM.batch_sizes_match.
  rewrite Hlen.
  destruct (_ && _); [|done]. cbn [bind].
  unfold RNNLM.forward_body.
  destruct (enc_forward _ _ _) as [logit|]; [|done]. cbn [bind].
  destruct (criterion_call _ _ _) as [[loss each]|]; [|done]. cbn [bind].
  destruct Hor as [-> | ->]; reflexivity.
Qed.
End LMFurther.

Lemma forward_returns_inv_witness :
  length [[0; 1]] = length [2]
  ∧ length [2] = length [[1; -1]]
  ∧ length [[1; -1]] = length [1].
Proof.
  eapply proj1.
  eapply (forward_returns_inv nll_criterion
            (RNNLM.init 2 flat_encoder 0%R true) [[0; 1]] [2] [[1; -1]] [1]).
  reflexivity.
Defined.

Lemma labels_length_only_sum_witness :
  RNNLM.forward nll_criterion (RNNLM.init 2 flat_encoder 0%R true)
    [[0; 1]] [2] [[1; -1]] [1]
  = RNNLM.forward nll_criterion (RNNLM.init 2 flat_encoder 0%R true)
      [[0; 1]] [2] [[1; -1]] [7].
Proof.
  apply (labels_length_only_sum nll_criterion
           (RNNLM.init 2 flat_encoder 0%R true) [[0; 1]] [2] [[1; -1]] [1] [7]);
    [reflexivity|by left].
Defined.

(** ** [forward_step] on a whole batch *)

(** In adaptive-softmax mode the two paths differ only in the prior state
    they hand to the recurrent layer: when the layer returns the same
    output with the caller's state as with none, [forward_step] returns
    exactly the scores of [forward], whatever the number of timesteps,
    together with the layer's new state. *)
Theorem forward_step_scores_as_forward {F} (lsm : list F → list F)
    (vocab_size : Z) (table : Embedding F) (rnn : StackedRNN F)
    (a : AdaptiveLogSoftmax F) (lin : Linear F) (input : list (list Z))
    (seq_len : list Z) (state_m state_c : list (list (list F)))
    (emb : list (list (list F))) (mask : list (list (list bool)))
    (out : list (list (list F))) (s0 s : rnn_state F) :
  Embedding_call table input = Ok emb →
  build_padding seq_len = Ok mask →
  rnn (transpose emb) mask None = Ok (out, s0) →
  rnn (transpose emb) mask (Some (state_m, state_c)) = Ok (out, s) →
  ∃ o, RNNEncoder.forward lsm
         (RNNEncoder.init vocab_size table rnn true a lin) input seq_len
       = Ok o
       ∧ RNNEncoder.forward_step lsm
           (RNNEncoder.init vocab_size table rnn true a lin) input seq_len
           state_m state_c
         = Ok (o, s).
Proof.
  intros He Hm H0 Hs. eexists.
  unfold RNNEncoder.forward, RNNEncoder.forward_step. simpl.
  rewrite He. simpl. rewrite Hm. simpl. rewrite H0, Hs. simpl.
  split; reflexivity.
Qed.

Lemma forward_step_scores_as_forward_witness :
  ∃ o, RNNEncoder.forward (λ v, v) (toy_encoder true)
         [[0; 0; 0]; [1; 2; 0]] [1; 3] = Ok o
       ∧ RNNEncoder.forward_step (λ v, v) (toy_encoder true)
           [[0; 0; 0]; [1; 2; 0]] [1; 3] [[[0]; [0]]] [[[0]; [0]]]
         = Ok (o, ([[[2]; [6]]], [[[0]; [0]]])).
Proof.
  eapply (forward_step_scores_as_forward (λ v, v) 3 toy_table
            (StackedRNNLayer_call 0 toy_layer) toy_scores toy_linear
            [[0; 0; 0]; [1; 2; 0]] [1; 3] [[[0]; [0]]] [[[0]; [0]]]);
    reflexivity.
Defined.
